(** * Riffusion: the prompt-interpolation page

    A shallow embedding of [riffusion/streamlit/pages/interpolation.py]
    ([render_interpolation], [get_prompt_inputs], [run_interpolation]) and the
    properties of its scheduling, per-step inference, stitching and packaging.

    Modelling conventions.
    - Python [int] is [Z].  A Python [float] is a double.  Module
      [Binary64] has the doubles (Rocq's primitive floats, which are IEEE
      754 binary64), [np.linspace] and [sum] as they are computed on them,
      and the [:.2f] format of a double; the [duration_seconds] of a segment
      is a double.  A float that the page only passes on (guidance,
      denoising) is the rational number it denotes ([Qc], whose equality is
      value equality).  The coefficients that the page carries from the
      scheduler to the requests are kept as the rational numbers
      [i / (N - 1)] that the doubles stand for ([Numeric.linspace]): the
      number of the requests, their order and what varies between them do
      not depend on the last place of a double.  [alpha_scheduler_rounded]
      relates the two schedules value by value (equal up to [2^-53], equal
      as displayed) for the step counts the page allows.
    - Python [str] is [string]; raw bytes are [list Byte.byte].
    - The [dict] built by [get_prompt_inputs] is a [gmap string pyval].
    - Streamlit widgets are modelled by the values they return (record
      [widgets]); what the page shows is appended to an event log.
    - Code that is called but lives outside this file (the diffusion pipeline,
      the spectrogram codec, ffmpeg behind pydub, PIL) is a field of the
      record [collaborators], which the page takes as a parameter: a function
      of an external state that may raise.
    - [np.linspace], [str.replace], [str.join], the [:.2f] format,
      [io.BytesIO], pydub's [append] and Streamlit's [experimental_memo] are
      written out after their library definitions. *)

From Stdlib Require Import Ascii String QArith Qabs Qcanon.
From Stdlib Require Floats Uint63.
From stdpp Require Import base numbers list strings gmap pretty.

Local Open Scope Z_scope.

(** ** Python values, exceptions *)

Inductive pyval :=
  | VStr (s : string)
  | VInt (z : Z)
  | VFloat (q : Qc).

Inductive exn :=
  | ValueError (msg : string)
  | TypeError (msg : string)
  | IndexError (msg : string)
  | ExternalError (origin : string).

Inductive result (A : Type) :=
  | Ok (a : A)
  | Err (e : exn).
Arguments Ok {A} a.
Arguments Err {A} e.

#[global] Instance result_ret : MRet result := λ A a, Ok a.
#[global] Instance result_bind : MBind result := λ A B k r,
  match r with
  | Ok a => k a
  | Err e => Err e
  end.

(** ** Numbers: [np.linspace] and fixed-point formatting, on rationals *)

Module Numeric.

(** The index [i] as a number. *)
Definition of_nat (i : nat) : Qc := Qc_of_Z (Z.of_nat i).

(** [np.arange(0, num)] *)
Definition arange (num : nat) : list Qc := of_nat <$> seq 0 num.

(** [np.linspace(start, stop, num)] with the default [endpoint=True], after
    numpy's [function_base.linspace], every operation exact: the samples are
    [arange(0, num) * step + start] with [step = (stop - start) / (num - 1)],
    the last one is then overwritten by [stop]; a negative [num] raises. *)
Definition linspace (start stop : Qc) (num : Z) : result (list Qc) :=
  if decide (num < 0) then
    Err (ValueError ("Number of samples, " +:+ pretty num
                     +:+ ", must be non-negative."))
  else
    let div := num - 1 in
    let delta := (stop - start)%Qc in
    let y : list Qc := arange (Z.to_nat num) in
    let y : list Qc :=
      if decide (0 < div) then
        let step := (delta / Qc_of_Z div)%Qc in
        if decide (step = 0%Qc)
        then (λ v, (v / Qc_of_Z div * delta)%Qc) <$> y
        else (λ v, (v * step)%Qc) <$> y
      else (λ v, (v * delta)%Qc) <$> y in
    let y : list Qc := (λ v, (v + start)%Qc) <$> y in
    Ok (if decide (1 < num) then <[pred (length y) := stop]> y else y).

(** Nearest integer, ties to even: the rounding of Python's [format]. *)
Definition round_half_even (x : Qc) : Z :=
  let n := Qnum (this x) in
  let d := Z.pos (Qden (this x)) in
  let q := n `div` d in
  let r := n `mod` d in
  match 2 * r ?= d with
  | Lt => q
  | Gt => q + 1
  | Eq => if Z.even q then q else q + 1
  end.

Fixpoint zeros (k : nat) : string :=
  match k with
  | O => ""
  | S k => String "0"%char (zeros k)
  end.

(** [s.rjust(width, "0")] *)
Definition zfill (width : nat) (s : string) : string :=
  zeros (width - String.length s) +:+ s.

(** [f"{x:.<digits>f}"] for a number that is exactly [x]: its decimal
    expansion rounded to [digits] places, ties to even. *)
Definition format_f (digits : nat) (x : Qc) : string :=
  let scaled := (x * Qc_of_Z (10 ^ Z.of_nat digits))%Qc in
  let m := Z.abs (round_half_even scaled) in
  let ds := zfill (S digits) (pretty m) in
  let cut := (String.length ds - digits)%nat in
  (if decide (x < 0)%Qc then "-" else "")
    +:+ substring 0 cut ds
    +:+ (if decide (digits = 0%nat) then "" else "." +:+ substring cut digits ds).

End Numeric.

(** ** Binary64: the doubles behind Python's [float] *)

Module Binary64.

Abbreviation float := PrimFloat.float.

(** [float(z)] for an integer below [2^63] in size. *)
Definition of_Z (z : Z) : float :=
  if decide (z < 0)
  then PrimFloat.opp (PrimFloat.of_uint63 (Uint63.of_Z (- z)))
  else PrimFloat.of_uint63 (Uint63.of_Z z).

(** [np.arange(0, num)] as doubles. *)
Definition arange (num : nat) : list float := (λ i, of_Z (Z.of_nat i)) <$> seq 0 num.

(** [np.linspace(start, stop, num)] as numpy computes it (the same steps
    as [Numeric.linspace]), every operation rounded to the nearest
    double. *)
Definition linspace (start stop : float) (num : Z) : result (list float) :=
  if decide (num < 0) then
    Err (ValueError ("Number of samples, " +:+ pretty num
                     +:+ ", must be non-negative."))
  else
    let div := num - 1 in
    let delta := PrimFloat.sub stop start in
    let y : list float := arange (Z.to_nat num) in
    let y : list float :=
      if decide (0 < div) then
        let step := PrimFloat.div delta (of_Z div) in
        if PrimFloat.eqb step PrimFloat.zero
        then (λ v, PrimFloat.mul (PrimFloat.div v (of_Z div)) delta) <$> y
        else (λ v, PrimFloat.mul v step) <$> y
      else (λ v, PrimFloat.mul v delta) <$> y in
    let y : list float := (λ v, PrimFloat.add v start) <$> y in
    Ok (if decide (1 < num) then <[pred (length y) := stop]> y else y).

(** The rational number that a finite double is. *)
Definition value (x : float) : option Qc :=
  match FloatOps.Prim2SF x with
  | SpecFloat.S754_zero _ => Some 0%Qc
  | SpecFloat.S754_finite s m e =>
      let z := if s then Z.neg m else Z.pos m in
      Some (if decide (0 ≤ e) then Qc_of_Z (z * 2 ^ e)
            else Q2Qc (z # Z.to_pos (2 ^ (- e))))
  | _ => None
  end.

(** [f"{x:.<digits>f}"] of a double: the decimal expansion of its exact
    value, rounded to [digits] places (ties to even). *)
Definition format_f (digits : nat) (x : float) : string :=
  match FloatOps.Prim2SF x with
  | SpecFloat.S754_nan => "nan"
  | SpecFloat.S754_infinity s => if s then "-inf" else "inf"
  | SpecFloat.S754_zero s => (if s then "-" else "") +:+ Numeric.format_f digits 0%Qc
  | SpecFloat.S754_finite _ _ _ => Numeric.format_f digits (default 0%Qc (value x))
  end.

(** [sum(xs)]: from the left, starting at 0. *)
Definition sum (xs : list float) : float := foldl PrimFloat.add PrimFloat.zero xs.



End Binary64.

(** [", ".join(parts)] *)
Fixpoint join (sep : string) (parts : list string) : string :=
  match parts with
  | [] => ""
  | [p] => p
  | p :: rest => p +:+ sep +:+ join sep rest
  end.

(** [s.replace(old, new)].  For a non-empty [old] its occurrences are found
    from left to right without overlap; [skip] counts the characters of the
    occurrence just found that are still to be dropped.  For an empty [old],
    [new] is put before every character and at the end. *)
Fixpoint replace_from (old new : string) (skip : nat) (s : string) : string :=
  match s with
  | EmptyString => EmptyString
  | String c rest =>
      match skip with
      | S k => replace_from old new k rest
      | O =>
          if String.prefix old s
          then new +:+ replace_from old new (String.length old - 1) rest
          else String c (replace_from old new 0 rest)
      end
  end.

Fixpoint put_after (new : string) (s : string) : string :=
  match s with
  | EmptyString => EmptyString
  | String c rest => String c (new +:+ put_after new rest)
  end.

Definition replace (old new : string) (s : string) : string :=
  match old with
  | EmptyString => new +:+ put_after new s
  | String _ _ => replace_from old new 0 s
  end.

(** ** Data model *)

Abbreviation bytes := (list Byte.byte).

(** Modelled from the spec: the declaration of [PromptInput]
    ([riffusion.datatypes]) is not among the sources.  The fields are the
    keyword arguments the page passes ([guidance] and the keys of the dict of
    [get_prompt_inputs]); the negative prompt is optional and absent when its
    keyword is not given. *)
Record PromptInput := {
  prompt : string;
  seed : Z;
  negative_prompt : option string;
  denoising : Qc;
  guidance : Qc }.

(** [PromptInput(guidance=guidance, **p)] *)
Definition PromptInput_new (guidance : Qc) (p : gmap string pyval)
  : result PromptInput :=
  match p !! "prompt", p !! "seed", p !! "denoising" with
  | Some (VStr text), Some (VInt sd), Some (VFloat dn) =>
      match p !! "negative_prompt" with
      | None =>
          Ok {| prompt := text; seed := sd; negative_prompt := None;
                denoising := dn; guidance := guidance |}
      | Some (VStr neg) =>
          Ok {| prompt := text; seed := sd; negative_prompt := Some neg;
                denoising := dn; guidance := guidance |}
      | Some _ => Err (TypeError "negative_prompt")
      end
  | _, _, _ => Err (TypeError "PromptInput")
  end.

(** Modelled from the spec: the declaration of [InferenceInput]
    ([riffusion.datatypes]) is not among the sources.  The fields are the
    keyword arguments the page passes. *)
Record InferenceInput := {
  alpha : Qc;
  num_inference_steps : Z;
  seed_image_id : string;
  start : PromptInput;
  end_ : PromptInput }.

(** Modelled from the spec: [SpectrogramParams] ([riffusion.spectrogram_params])
    is not among the sources; only the two fields the page sets are kept. *)
Record SpectrogramParams := {
  min_frequency : Z;
  max_frequency : Z }.

(** A PIL image, by value. *)
Record Image := {
  im_mode : string;
  im_size : Z * Z;
  im_data : bytes }.

(** Where a seed image comes from: a file of the [seed_images] directory or
    the uploaded file. *)
Inductive image_source :=
  | SeedFile (file_name : string)
  | Uploaded (content : bytes).

(** [io.BytesIO]: a buffer and a position. *)
Record BytesIO := {
  buf : bytes;
  pos : nat }.

Definition BytesIO_new : BytesIO := {| buf := []; pos := 0 |}.

(** [f.write(data)] at the position of the stream. *)
Definition BytesIO_write (f : BytesIO) (data : bytes) : BytesIO :=
  {| buf := take (pos f) (buf f) ++ data ++ drop (pos f + length data) (buf f);
     pos := pos f + length data |}.

(** [f.seek(offset)] *)
Definition BytesIO_seek (f : BytesIO) (offset : nat) : BytesIO :=
  {| buf := buf f; pos := offset |}.

(** What [segment.export(f, format)] does to [f], given the encoding of the
    segment: it rewinds [f], writes the encoding and rewinds [f] again. *)
Definition export_into (f : BytesIO) (encoded : bytes) : BytesIO :=
  BytesIO_seek (BytesIO_write (BytesIO_seek f 0) encoded) 0.

(** What a reader of the stream gets: the bytes from the position on. *)
Definition BytesIO_read (f : BytesIO) : bytes := drop (pos f) (buf f).

#[global] Instance byte_eq_dec : EqDecision Byte.byte := Byte.byte_eq_dec.
#[global] Instance pyval_eq_dec : EqDecision pyval.
Proof. solve_decision. Defined.
#[global] Instance PromptInput_eq_dec : EqDecision PromptInput.
Proof. solve_decision. Defined.
#[global] Instance InferenceInput_eq_dec : EqDecision InferenceInput.
Proof. solve_decision. Defined.
#[global] Instance Image_eq_dec : EqDecision Image.
Proof. solve_decision. Defined.

(** ** pydub audio segments *)

Module AudioSegment.

(** Decoded PCM audio: its format and its frames (one list of samples per
    frame). *)
Record t := {
  channels : Z;
  frame_rate : Z;
  sample_width : Z;
  frames : list (list Z) }.

Definition format_of (s : t) : Z * Z * Z :=
  (channels s, frame_rate s, sample_width s).

Definition frame_count (s : t) : Z := Z.of_nat (length (frames s)).

(** [duration_seconds]:
    [self.frame_rate and self.frame_count() / self.frame_rate or 0.0],
    a double. *)
Definition duration_seconds (s : t) : Binary64.float :=
  if decide (frame_rate s = 0) then PrimFloat.zero
  else
    let d := PrimFloat.div (Binary64.of_Z (frame_count s))
                           (Binary64.of_Z (frame_rate s)) in
    if PrimFloat.eqb d PrimFloat.zero then PrimFloat.zero else d.

(** [_spawn]: same format, new data. *)
Definition spawn (s : t) (data : list (list Z)) : t :=
  {| channels := channels s; frame_rate := frame_rate s;
     sample_width := sample_width s; frames := data |}.

(** The signal processing behind [set_channels], [set_frame_rate] and
    [set_sample_width] (audioop, which may raise), and the cross-faded
    branch of [append]. *)
Record dsp := {
  convert_channels : Z → t → result t;
  convert_frame_rate : Z → t → result t;
  convert_sample_width : Z → t → result t;
  crossfaded : t → t → Z → result t }.

Section Ops.
Context (D : dsp).

(** Each setter returns the segment itself when it already has the
    requested value.  [set_channels] converts from mono and to mono only;
    [set_frame_rate] has nothing to resample in a segment without data. *)
Definition set_channels (c : Z) (s : t) : result t :=
  if decide (c = channels s) then Ok s
  else if decide (channels s = 1 ∨ c = 1) then convert_channels D c s
  else Err (ValueError ("AudioSegment.set_channels only supports mono-to-multi "
                        +:+ "channel and multi-to-mono channel conversion")).
Definition set_frame_rate (r : Z) (s : t) : result t :=
  if decide (r = frame_rate s) then Ok s
  else match frames s with
       | [] => Ok {| channels := channels s; frame_rate := r;
                     sample_width := sample_width s; frames := [] |}
       | _ => convert_frame_rate D r s
       end.
Definition set_sample_width (w : Z) (s : t) : result t :=
  if decide (w = sample_width s) then Ok s else convert_sample_width D w s.

(** [_sync]: both segments brought to the larger of each format field, the
    first segment first. *)
Definition sync (s1 s2 : t) : result (t * t) :=
  let c := Z.max (channels s1) (channels s2) in
  let r := Z.max (frame_rate s1) (frame_rate s2) in
  let w := Z.max (sample_width s1) (sample_width s2) in
  let conv s :=
    s ← set_channels c s;
    s ← set_frame_rate r s;
    set_sample_width w s in
  seg1 ← conv s1;
  seg2 ← conv s2;
  Ok (seg1, seg2).

(** [self.append(seg, crossfade)] *)
Definition append (self seg : t) (crossfade : Z) : result t :=
  '(seg1, seg2) ← sync self seg;
  if decide (crossfade = 0)
  then Ok (spawn seg1 (frames seg1 ++ frames seg2))
  else crossfaded D seg1 seg2 crossfade.
End Ops.

End AudioSegment.

(** ** The page's inputs *)

(** The values the widgets return in one script run. *)
Record widgets := {
  w_device : string;
  w_extension : string;
  w_num_interpolation_steps : Z;
  w_num_inference_steps : Z;
  w_guidance : Qc;
  w_init_image_name : string;
  w_init_image_file : option bytes;
  w_show_individual_outputs : bool;
  w_show_images : bool;
  w_text_input : string → string;
  w_int_input : string → Z;
  w_float_input : string → Qc }.

(** The arguments of the cached function: the key of its cache. *)
Definition memo_key : Type := InferenceInput * Image * string * string.

(** ** Events: what the page shows and which outside code it calls *)

Inductive event :=
  | st_write (text : string)
  | st_info (text : string)
  | st_json (inputs : InferenceInput)
  | st_image (image : Image)
  | st_audio (data : bytes)
  | st_download_button (label : string) (data : BytesIO) (file_name mime : string)
  | enter_run_interpolation (key : memo_key)
  | leave_run_interpolation (key : memo_key)
  | ev_load_riffusion_checkpoint (device : string) (no_traced_unet : bool)
  | ev_riffuse (inputs : InferenceInput) (init_image : Image)
  | ev_audio_bytes_from_spectrogram_image
      (image : Image) (params : SpectrogramParams) (device output_format : string)
  | ev_image_open (src : image_source)
  | ev_from_file (data : bytes)
  | ev_export (segment : AudioSegment.t) (format : string).

(** ** Outside code *)

(** The functions the page calls and does not define.  Each one reads and
    changes an external state [Ext] (the device, the file system, the
    subprocesses) and may raise.
    - [load_riffusion_checkpoint], [audio_bytes_from_spectrogram_image]:
      [riffusion.streamlit.util];
    - [riffuse]: the method of the loaded pipeline;
    - [Image_open_rgb]: [Image.open(...).convert("RGB")];
    - [from_file], [export]: pydub's decoder and encoder;
    - [audio_dsp]: pydub's format conversions. *)
Record collaborators (Ext Pipeline : Type) := {
  load_riffusion_checkpoint : string → bool → Ext → result Pipeline * Ext;
  riffuse :
    Pipeline → InferenceInput → Image → option Image → Ext → result Image * Ext;
  audio_bytes_from_spectrogram_image :
    Image → SpectrogramParams → string → string → Ext → result bytes * Ext;
  Image_open_rgb : image_source → Ext → result Image * Ext;
  from_file : bytes → Ext → result AudioSegment.t * Ext;
  export : AudioSegment.t → string → Ext → result bytes * Ext;
  audio_dsp : AudioSegment.dsp }.
Arguments load_riffusion_checkpoint {Ext Pipeline} _ _ _ _.
Arguments riffuse {Ext Pipeline} _ _ _ _ _ _.
Arguments audio_bytes_from_spectrogram_image {Ext Pipeline} _ _ _ _ _ _.
Arguments Image_open_rgb {Ext Pipeline} _ _ _.
Arguments from_file {Ext Pipeline} _ _ _.
Arguments export {Ext Pipeline} _ _ _ _.
Arguments audio_dsp {Ext Pipeline} _.

(** ** The state of the process and the monad of the page *)

(** The cache of [st.experimental_memo], the log of events, the outside
    world. *)
Record state (Ext : Type) := {
  memo : list (memo_key * (Image * bytes));
  log : list event;
  ext : Ext }.
Arguments memo {Ext} _.
Arguments log {Ext} _.
Arguments ext {Ext} _.

(** How a piece of the script ends: with a value, by the [return] statement
    of the page, or by an exception. *)
Inductive outcome (A : Type) :=
  | Val (a : A)
  | Returned
  | Raised (e : exn).
Arguments Val {A} a.
Arguments Returned {A}.
Arguments Raised {A} e.

Definition M (Ext : Type) (A : Type) : Type := state Ext → outcome A * state Ext.

#[global] Instance M_ret {Ext} : MRet (M Ext) := λ A a s, (Val a, s).
#[global] Instance M_bind {Ext} : MBind (M Ext) := λ A B k m s,
  match m s with
  | (Val a, s') => k a s'
  | (Returned, s') => (Returned, s')
  | (Raised e, s') => (Raised e, s')
  end.

(** [memo_lookup key cache]: the entry stored for arguments equal to [key]. *)
Fixpoint memo_lookup (key : memo_key) (cache : list (memo_key * (Image * bytes)))
  : option (Image * bytes) :=
  match cache with
  | [] => None
  | (k, v) :: rest => if decide (key = k) then Some v else memo_lookup key rest
  end.

Section Page.
Context {Ext Pipeline : Type} (C : collaborators Ext Pipeline).

Abbreviation M' := (M Ext).

(** The [return] statement of [render_interpolation]. *)
Definition return_ {A} : M' A := λ s, (Returned, s).

Definition raise {A} (e : exn) : M' A := λ s, (Raised e, s).

Definition lift {A} (r : result A) : M' A :=
  match r with
  | Ok a => mret a
  | Err e => raise e
  end.

(** Show something on the page. *)
Definition emit (e : event) : M' unit := λ s,
  (Val tt, {| memo := memo s; log := log s ++ [e]; ext := ext s |}).

(** Call outside code: the call is logged, then it acts on the outside
    world. *)
Definition call {A} (e : event) (f : Ext → result A * Ext) : M' A := λ s,
  let '(r, x) := f (ext s) in
  lift r {| memo := memo s; log := log s ++ [e]; ext := x |}.

Definition memo_read (key : memo_key) : M' (option (Image * bytes)) := λ s,
  (Val (memo_lookup key (memo s)), s).

Definition memo_write (key : memo_key) (v : Image * bytes) : M' unit := λ s,
  (Val tt, {| memo := memo s ++ [(key, v)]; log := log s; ext := ext s |}).

(** [@st.experimental_memo]: the arguments are the key; a stored value is
    returned without running the function, otherwise the function runs and
    its value is stored (an exception stores nothing). *)
Definition experimental_memo (f : memo_key → M' (Image * bytes))
    (key : memo_key) : M' (Image * bytes) :=
  cached ← memo_read key;
  match cached with
  | Some v => mret v
  | None => v ← f key; memo_write key v;; mret v
  end.

(** The body of [run_interpolation]. *)
Definition run_interpolation_body (key : memo_key) : M' (Image * bytes) :=
  let '(inputs, init_image, device, extension) := key in
  pipeline ← call (ev_load_riffusion_checkpoint device true)
                  (load_riffusion_checkpoint C device true);
  image ← call (ev_riffuse inputs init_image)
               (riffuse C pipeline inputs init_image None);
  let params := {| min_frequency := 0; max_frequency := 10000 |} in
  audio_bytes ← call (ev_audio_bytes_from_spectrogram_image image params device extension)
                     (audio_bytes_from_spectrogram_image C image params device extension);
  mret (image, audio_bytes).

(** [run_interpolation], as the page calls it: the cached function. *)
Definition run_interpolation (inputs : InferenceInput) (init_image : Image)
    (device extension : string) : M' (Image * bytes) :=
  let key : memo_key := (inputs, init_image, device, extension) in
  emit (enter_run_interpolation key);;
  v ← experimental_memo run_interpolation_body key;
  emit (leave_run_interpolation key);;
  mret v.

(** ** [get_prompt_inputs] *)

(** [cols] only changes the layout of the widgets. *)
Definition get_prompt_inputs (w : widgets) (key : string)
    (include_negative_prompt : bool) (cols : bool) : gmap string pyval :=
  let p : gmap string pyval := ∅ in
  let p := <["prompt" := VStr (w_text_input w ("prompt_" +:+ key))]> p in
  let p :=
    if include_negative_prompt
    then <["negative_prompt" := VStr (w_text_input w ("negative_prompt_" +:+ key))]> p
    else p in
  let p := <["seed" := VInt (w_int_input w ("seed_" +:+ key))]> p in
  let p := <["denoising" := VFloat (w_float_input w ("denoising_" +:+ key))]> p in
  p.

(** ** [render_interpolation] *)

(** The request of one step. *)
Definition make_inputs (w : widgets) (prompt_input_a prompt_input_b : PromptInput)
    (alpha : Qc) : InferenceInput :=
  {| alpha := alpha;
     num_inference_steps := w_num_inference_steps w;
     seed_image_id := "og_beat";
     start := prompt_input_a;
     end_ := prompt_input_b |}.

Definition when (b : bool) (m : M' unit) : M' unit := if b then m else mret tt.

(** The loop [for i, alpha in enumerate(alphas)], from index [i] on;
    [total] is [len(alphas)]. *)
Fixpoint steps (w : widgets) (a b : PromptInput) (init_image : Image)
    (total : nat) (i : nat) (alphas : list Qc)
    (image_list : list Image) (audio_bytes_list : list bytes)
  : M' (list Image * list bytes) :=
  match alphas with
  | [] => mret (image_list, audio_bytes_list)
  | alpha :: rest =>
      let inputs := make_inputs w a b alpha in
      when (bool_decide (i = 0%nat)) (emit (st_json inputs));;
      '(image, audio_bytes) ←
        run_interpolation inputs init_image (w_device w) (w_extension w);
      when (w_show_individual_outputs w)
        (emit (st_write ("#### (" +:+ pretty (i + 1)%nat +:+ " / " +:+ pretty total
                         +:+ ") Alpha=" +:+ Numeric.format_f 2 alpha));;
         when (w_show_images w) (emit (st_image image));;
         emit (st_audio audio_bytes));;
      steps w a b init_image total (S i) rest
            (image_list ++ [image]) (audio_bytes_list ++ [audio_bytes])
  end.

(** [[AudioSegment.from_file(b) for b in audio_bytes_list]] *)
Fixpoint decode_all (audio_bytes_list : list bytes) : M' (list AudioSegment.t) :=
  match audio_bytes_list with
  | [] => mret []
  | b :: rest =>
      seg ← call (ev_from_file b) (from_file C b);
      segs ← decode_all rest;
      mret (seg :: segs)
  end.

(** The loop [for segment in audio_segments[1:]]. *)
Fixpoint concat (concat_segment : AudioSegment.t) (rest : list AudioSegment.t)
  : result AudioSegment.t :=
  match rest with
  | [] => Ok concat_segment
  | segment :: rest =>
      match AudioSegment.append (audio_dsp C) concat_segment segment 0 with
      | Ok c => concat c rest
      | Err e => Err e
      end
  end.

(** [audio_segments[0]] and the loop over [audio_segments[1:]]. *)
Definition stitch (audio_segments : list AudioSegment.t) : result AudioSegment.t :=
  match audio_segments with
  | [] => Err (IndexError "list index out of range")
  | first :: rest => concat first rest
  end.

Definition output_name (a b : PromptInput) (extension : string) : string :=
  replace " " "_" (prompt a) +:+ "_" +:+ replace " " "_" (prompt b)
    +:+ "." +:+ extension.

Definition alphas_line (alphas : list Qc) : string :=
  "**Alphas** : [" +:+ join ", " (Numeric.format_f 2 <$> alphas) +:+ "]".

(** The seed image the sidebar selects. *)
Definition selected_source (w : widgets) : option image_source :=
  if bool_decide (w_init_image_name w = "custom")
  then Uploaded <$> w_init_image_file w
  else Some (SeedFile (w_init_image_name w +:+ ".png")).

(** [init_image]: the uploaded image for ["custom"] (the page returns when
    there is none), the named file of [seed_images] otherwise. *)
Definition open_init_image (w : widgets) : M' Image :=
  if bool_decide (w_init_image_name w = "custom") then
    match w_init_image_file w with
    | None => emit (st_info "Upload a custom seed image");; return_
    | Some file =>
        call (ev_image_open (Uploaded file)) (Image_open_rgb C (Uploaded file))
    end
  else
    let src := SeedFile (w_init_image_name w +:+ ".png") in
    call (ev_image_open src) (Image_open_rgb C src).

(** From ["#### Final Output"] to the download button. *)
Definition final_output (w : widgets) (a b : PromptInput)
    (audio_bytes_list : list bytes) : M' unit :=
  let extension := w_extension w in
  emit (st_write "#### Final Output");;
  audio_segments ← decode_all audio_bytes_list;
  concat_segment ← lift (stitch audio_segments);
  encoded ← call (ev_export concat_segment extension)
                 (export C concat_segment extension);
  let audio_bytes := export_into BytesIO_new encoded in
  let audio_bytes := BytesIO_seek audio_bytes 0 in
  emit (st_write ("Duration: "
                  +:+ Binary64.format_f 3 (AudioSegment.duration_seconds concat_segment)
                  +:+ " seconds"));;
  emit (st_audio (buf audio_bytes));;
  let output_name := output_name a b extension in
  emit (st_download_button output_name audio_bytes output_name
                           ("audio/" +:+ extension)).

(** The page once both prompts are there. *)
Definition interpolate (w : widgets) (prompt_input_a prompt_input_b : PromptInput)
  : M' unit :=
  alphas ← lift (Numeric.linspace 0 1 (w_num_interpolation_steps w));
  emit (st_write (alphas_line alphas));;
  init_image ← open_init_image w;
  '(image_list, audio_bytes_list) ←
    steps w prompt_input_a prompt_input_b init_image (length alphas) 0 alphas [] [];
  final_output w prompt_input_a prompt_input_b audio_bytes_list.

(** The page.  The static text and the widgets themselves are not traced:
    a widget is the value it returns, in [w]. *)
Definition render_interpolation (w : widgets) : M' unit :=
  let guidance := w_guidance w in
  prompt_input_a ← lift (PromptInput_new guidance (get_prompt_inputs w "a" false false));
  prompt_input_b ← lift (PromptInput_new guidance (get_prompt_inputs w "b" false false));
  if bool_decide (prompt prompt_input_a = "") || bool_decide (prompt prompt_input_b = "")
  then
    emit (st_info "Enter both prompts to interpolate between them");;
    return_
  else
    interpolate w prompt_input_a prompt_input_b.

(** The life of the process: the script runs once per interaction, each
    time with the widgets' values of the moment, on the state the runs
    before left (however they ended). *)
Fixpoint session (ws : list widgets) (s : state Ext) : state Ext :=
  match ws with
  | [] => s
  | w :: rest => session rest (render_interpolation w s).2
  end.

End Page.

(** ** Vocabulary of the properties *)

(** The endpoint the form of [key] describes. *)
Definition endpoint (w : widgets) (key : string) : PromptInput :=
  {| prompt := w_text_input w ("prompt_" +:+ key);
     seed := w_int_input w ("seed_" +:+ key);
     negative_prompt := None;
     denoising := w_float_input w ("denoising_" +:+ key);
     guidance := w_guidance w |}.

(** The arguments of the step of coefficient [x] in a run on the seed image
    [img]. *)
Definition step_key (w : widgets) (img : Image) (x : Qc) : memo_key :=
  (make_inputs w (endpoint w "a") (endpoint w "b") x, img, w_device w, w_extension w).

(** Calls of the per-step inference: entering and leaving the cached
    function. *)
Definition is_step_event (e : event) : bool :=
  match e with
  | enter_run_interpolation _ | leave_run_interpolation _ => true
  | _ => false
  end.

Definition step_calls (l : list event) : list event := filter is_step_event l.

(** Runs of the diffusion pipeline. *)
Definition is_riffuse (e : event) : bool :=
  match e with
  | ev_riffuse _ _ => true
  | _ => false
  end.

Definition riffuse_calls (l : list event) : list event := filter is_riffuse l.

(** Calls of outside code on behalf of a step. *)
Definition is_inference_event (e : event) : bool :=
  match e with
  | ev_load_riffusion_checkpoint _ _ | ev_riffuse _ _
  | ev_audio_bytes_from_spectrogram_image _ _ _ _ => true
  | _ => false
  end.

(** The requests a log shows being built and passed on, in order. *)
Definition requests_of (l : list event) : list InferenceInput :=
  omap (λ e, match e with
             | enter_run_interpolation (inputs, _, _, _) => Some inputs
             | _ => None
             end) l.

(** The duration of a segment as the rational number of seconds it is:
    frames over frame rate, before any rounding. *)
Definition exact_duration (s : AudioSegment.t) : Qc :=
  if decide (AudioSegment.frame_rate s = 0) then 0%Qc
  else (Qc_of_Z (AudioSegment.frame_count s) / Qc_of_Z (AudioSegment.frame_rate s))%Qc.

Definition total_exact_duration (segs : list AudioSegment.t) : Qc :=
  foldr Qcplus 0%Qc (exact_duration <$> segs).

(** [emits P m]: whatever [m] does, it only appends to the log, and only
    events that satisfy [P]. *)
Definition emits {Ext A} (P : event → Prop) (m : M Ext A) : Prop :=
  ∀ s, ∃ added, log (m s).2 = log s ++ added ∧ Forall P added.

(** What an event of a run on the seed image [img] with the schedule
    [alphas] may be: a request it shows, passes on or runs is the request of
    one of the coefficients. *)
Definition run_event (w : widgets) (img : Image) (alphas : list Qc) (e : event) : Prop :=
  match e with
  | enter_run_interpolation k | leave_run_interpolation k =>
      ∃ x, x ∈ alphas ∧ k = step_key w img x
  | st_json inputs =>
      ∃ x, x ∈ alphas ∧ inputs = make_inputs w (endpoint w "a") (endpoint w "b") x
  | ev_riffuse inputs init_image =>
      ∃ x, x ∈ alphas ∧ init_image = img ∧
           inputs = make_inputs w (endpoint w "a") (endpoint w "b") x
  | _ => True
  end.

(** The cache only grows: what could be looked up still can, with the same
    value. *)
Definition memo_extends {Ext} (s s' : state Ext) : Prop :=
  ∀ key v, memo_lookup key (memo s) = Some v → memo_lookup key (memo s') = Some v.

(** Each space of [s] replaced by an underscore, character by character. *)
Fixpoint underscore_spaces (s : string) : string :=
  match s with
  | EmptyString => EmptyString
  | String c rest =>
      String (if Ascii.eqb c " " then "_"%char else c) (underscore_spaces rest)
  end.

(** [memo_grows m]: whatever [m] does, the cache keeps its entries (new ones
    come after them). *)
Definition memo_grows {Ext A} (m : M Ext A) : Prop :=
  ∀ s, ∃ more, memo (m s).2 = memo s ++ more.

(** ** More vocabulary *)

(** The same inputs with the two display check boxes set otherwise. *)
Definition with_display (w : widgets) (outputs images : bool) : widgets :=
  {| w_device := w_device w;
     w_extension := w_extension w;
     w_num_interpolation_steps := w_num_interpolation_steps w;
     w_num_inference_steps := w_num_inference_steps w;
     w_guidance := w_guidance w;
     w_init_image_name := w_init_image_name w;
     w_init_image_file := w_init_image_file w;
     w_show_individual_outputs := outputs;
     w_show_images := images;
     w_text_input := w_text_input w;
     w_int_input := w_int_input w;
     w_float_input := w_float_input w |}.

(** The requests the page shows as example input JSON. *)
Definition jsons_shown (l : list event) : list InferenceInput :=
  omap (λ e, match e with st_json inputs => Some inputs | _ => None end) l.

(** The audio the page plays. *)
Definition audios_shown (l : list event) : list bytes :=
  omap (λ e, match e with st_audio data => Some data | _ => None end) l.

Definition is_download (e : event) : bool :=
  match e with
  | st_download_button _ _ _ _ => true
  | _ => false
  end.

(** What the loop may add to the log, the example JSON apart. *)
Definition is_loop_event (e : event) : bool :=
  match e with
  | st_write _ | st_image _ | st_audio _
  | enter_run_interpolation _ | leave_run_interpolation _ => true
  | _ => is_inference_event e
  end.

(** [begins_with prefix P m]: whatever [m] does, it appends [prefix] to the
    log, and after it only events that satisfy [P]. *)
Definition begins_with {Ext A} (prefix : list event) (P : event → Prop)
    (m : M Ext A) : Prop :=
  ∀ s, ∃ tail, log (m s).2 = log s ++ prefix ++ tail ∧ Forall P tail.

(** [download_last name mime m]: whatever [m] does, it only appends to the
    log; when it ends with a value the last event is the download button
    [name] (of type [mime], for a file [name]) and there is no other;
    otherwise there is none. *)
Definition download_last {Ext A} (name mime : string) (m : M Ext A) : Prop :=
  ∀ s, ∃ added,
    log (m s).2 = log s ++ added ∧
    match (m s).1 with
    | Val _ =>
        ∃ pre stream,
          added = pre ++ [st_download_button name stream name mime] ∧
          Forall (λ e, ¬ is_download e) pre
    | _ => Forall (λ e, ¬ is_download e) added
    end.

(** Outside code that returns, whatever the state of the world. *)
Definition succeeds {Ext A} (f : Ext → result A * Ext) : Prop :=
  ∀ x, ∃ a x', f x = (Ok a, x').

Definition all_succeed {Ext Pipeline} (C : collaborators Ext Pipeline) : Prop :=
  (∀ device traced, succeeds (load_riffusion_checkpoint C device traced)) ∧
  (∀ pipeline inputs img mask, succeeds (riffuse C pipeline inputs img mask)) ∧
  (∀ image params device format,
     succeeds (audio_bytes_from_spectrogram_image C image params device format)) ∧
  (∀ src, succeeds (Image_open_rgb C src)) ∧
  (∀ data, succeeds (from_file C data)) ∧
  (∀ segment format, succeeds (export C segment format)).

(** The segments a log shows being exported. *)
Definition exported (l : list event) : list AudioSegment.t :=
  omap (λ e, match e with ev_export segment _ => Some segment | _ => None end) l.

(** The decoder returns segments of one format (channels, frame rate,
    sample width), whatever it decodes. *)
Definition decodes_as {Ext Pipeline} (C : collaborators Ext Pipeline)
    (f : Z * Z * Z) : Prop :=
  ∀ data x seg x', from_file C data x = (Ok seg, x') → AudioSegment.format_of seg = f.

(** [ends_well m Q]: from any state [m] ends with a value, which
    satisfies [Q]. *)
Definition ends_well {Ext A} (m : M Ext A) (Q : A → Prop) : Prop :=
  ∀ s, ∃ a s', m s = (Val a, s') ∧ Q a.

(** The keys of the cache, in the order they were stored. *)
Definition memo_keys {Ext} (s : state Ext) : list memo_key := (memo s).*1.

(** [memo_step s s']: the cache of [s'] is the cache of [s] followed by
    entries under keys that are new and distinct. *)
Definition memo_step {Ext} (s s' : state Ext) : Prop :=
  ∃ more, memo s' = memo s ++ more ∧
          NoDup more.*1 ∧
          ∀ k, k ∈ more.*1 → memo_lookup k (memo s) = None.

(** ** A concrete instance, to run the page *)

Module Demo.

Definition byte_of (n : nat) : Byte.byte :=
  default Byte.x00 (Byte.of_nat (n `mod` 256)).

(** The outside state counts the diffusion runs made so far; the first run
    on a device fails when the world starts at [0] ("device busy"). *)
Definition demo_riffuse (pipeline : string) (inputs : InferenceInput)
    (init_image : Image) (mask_image : option Image) (x : nat)
  : result Image * nat :=
  if decide (x = 0)%nat then (Err (ExternalError "riffuse"), S x)
  else (Ok {| im_mode := "RGB"; im_size := (512, 512);
              im_data := byte_of x :: im_data init_image |}, S x).

Definition demo_from_file (data : bytes) (x : nat) : result AudioSegment.t * nat :=
  (Ok {| AudioSegment.channels := 1; AudioSegment.frame_rate := 4;
         AudioSegment.sample_width := 2;
         AudioSegment.frames := (λ b, [Z.of_nat (Byte.to_nat b)]) <$> data |}, x).

Definition demo_export (segment : AudioSegment.t) (format : string) (x : nat)
  : result bytes * nat :=
  (Ok ((λ fr, byte_of (Z.to_nat (foldr Z.add 0 fr))) <$> AudioSegment.frames segment), x).

(** Conversions without filtering: a mono sample is repeated on every
    channel, channels are averaged into one, frames are repeated or dropped
    to reach a frame rate, samples are scaled to a width. *)
Definition demo_channels (c : Z) (s : AudioSegment.t) : result AudioSegment.t :=
  Ok {| AudioSegment.channels := c;
        AudioSegment.frame_rate := AudioSegment.frame_rate s;
        AudioSegment.sample_width := AudioSegment.sample_width s;
        AudioSegment.frames :=
          (λ fr : list Z,
             if decide (c = 1)
             then [foldr Z.add 0 fr `div` AudioSegment.channels s]
             else replicate (Z.to_nat c) (default 0 (head fr)))
            <$> AudioSegment.frames s |}.

Definition demo_frame_rate (r : Z) (s : AudioSegment.t) : result AudioSegment.t :=
  if decide (r ≤ 0) then Err (ExternalError "audioop")
  else
    let old : list (list Z) := AudioSegment.frames s in
    let n : nat := Z.to_nat (Z.of_nat (length old) * r `div` AudioSegment.frame_rate s) in
    Ok {| AudioSegment.channels := AudioSegment.channels s;
          AudioSegment.frame_rate := r;
          AudioSegment.sample_width := AudioSegment.sample_width s;
          AudioSegment.frames :=
            (λ i : nat,
               default ([] : list Z)
                 (old !! Z.to_nat (Z.of_nat i * AudioSegment.frame_rate s `div` r)))
              <$> seq 0 n |}.

Definition demo_sample_width (w : Z) (s : AudioSegment.t) : result AudioSegment.t :=
  Ok {| AudioSegment.channels := AudioSegment.channels s;
        AudioSegment.frame_rate := AudioSegment.frame_rate s;
        AudioSegment.sample_width := w;
        AudioSegment.frames :=
          (λ fr : list Z, (λ v : Z, v * 256 ^ (w - AudioSegment.sample_width s)) <$> fr)
            <$> AudioSegment.frames s |}.

Definition demo_dsp : AudioSegment.dsp :=
  {| AudioSegment.convert_channels := demo_channels;
     AudioSegment.convert_frame_rate := demo_frame_rate;
     AudioSegment.convert_sample_width := demo_sample_width;
     AudioSegment.crossfaded s1 s2 c := Err (ValueError "crossfade") |}.

Definition demo : collaborators nat string :=
  {| load_riffusion_checkpoint device no_traced_unet x := (Ok device, x);
     riffuse := demo_riffuse;
     audio_bytes_from_spectrogram_image image params device output_format x :=
       (Ok (take 3 (im_data image)), x);
     Image_open_rgb src x :=
       (Ok {| im_mode := "RGB"; im_size := (512, 512);
              im_data := match src with
                         | SeedFile _ => [Byte.x01; Byte.x02]
                         | Uploaded content => content
                         end |}, x);
     from_file := demo_from_file;
     export := demo_export;
     audio_dsp := demo_dsp |}.

Definition demo_widgets (prompt_a prompt_b : string) (steps : Z) : widgets :=
  {| w_device := "cuda";
     w_extension := "mp3";
     w_num_interpolation_steps := steps;
     w_num_inference_steps := 50;
     w_guidance := Qc_of_Z 7;
     w_init_image_name := "og_beat";
     w_init_image_file := None;
     w_show_individual_outputs := false;
     w_show_images := false;
     w_text_input key :=
       if decide (key = "prompt_a") then prompt_a
       else if decide (key = "prompt_b") then prompt_b else "";
     w_int_input key := 42;
     w_float_input key := Q2Qc (1 # 2) |}.

Definition start_state (x : nat) : state nat :=
  {| memo := []; log := []; ext := x |}.

(** "church bells" to "jazz" in three steps, and in one. *)
Definition bells_to_jazz : widgets := demo_widgets "church bells" "jazz" 3.
Definition bells_to_jazz_once : widgets := demo_widgets "church bells" "jazz" 1.

(** The same with an uploaded seed image. *)
Definition bells_to_jazz_custom : widgets :=
  {| w_device := "cuda";
     w_extension := "wav";
     w_num_interpolation_steps := 2;
     w_num_inference_steps := 50;
     w_guidance := Qc_of_Z 7;
     w_init_image_name := "custom";
     w_init_image_file := Some [Byte.x07; Byte.x08; Byte.x09];
     w_show_individual_outputs := true;
     w_show_images := true;
     w_text_input := w_text_input bells_to_jazz;
     w_int_input := w_int_input bells_to_jazz;
     w_float_input := w_float_input bells_to_jazz |}.

(** The form with prompt A left empty. *)
Definition no_prompt_a : widgets := demo_widgets "" "jazz" 4.

Definition og_beat : Image :=
  {| im_mode := "RGB"; im_size := (512, 512); im_data := [Byte.x01; Byte.x02] |}.

(** The request of the first step of [bells_to_jazz]. *)
Definition first_request : InferenceInput :=
  make_inputs bells_to_jazz (endpoint bells_to_jazz "a") (endpoint bells_to_jazz "b")
              (Q2Qc 0).

Definition two_segments : list AudioSegment.t :=
  [ {| AudioSegment.channels := 1; AudioSegment.frame_rate := 4;
       AudioSegment.sample_width := 2; AudioSegment.frames := [[1]; [2]; [3]] |};
    {| AudioSegment.channels := 1; AudioSegment.frame_rate := 4;
       AudioSegment.sample_width := 2; AudioSegment.frames := [[4]; [5]] |} ].

(** Collaborators that never fail. *)
Definition steady : collaborators nat string :=
  {| load_riffusion_checkpoint := load_riffusion_checkpoint demo;
     riffuse pipeline inputs init_image mask_image x :=
       (Ok {| im_mode := "RGB"; im_size := (512, 512);
              im_data := byte_of x :: im_data init_image |}, S x);
     audio_bytes_from_spectrogram_image := audio_bytes_from_spectrogram_image demo;
     Image_open_rgb := Image_open_rgb demo;
     from_file := from_file demo;
     export := export demo;
     audio_dsp := audio_dsp demo |}.

(** An encoder that loses the lowest bit of every sample. *)
Definition lossy_export (segment : AudioSegment.t) (format : string) (x : nat)
  : result bytes * nat :=
  (Ok ((λ fr, byte_of (2 * (Z.to_nat (foldr Z.add 0 fr) `div` 2)))
         <$> AudioSegment.frames segment), x).

Definition lossy : collaborators nat string :=
  {| load_riffusion_checkpoint := load_riffusion_checkpoint demo;
     riffuse := riffuse demo;
     audio_bytes_from_spectrogram_image := audio_bytes_from_spectrogram_image demo;
     Image_open_rgb := Image_open_rgb demo;
     from_file := from_file demo;
     export := lossy_export;
     audio_dsp := audio_dsp demo |}.

(** Three mono segments of five frames each at 44100 frames a second. *)
Definition three_short_segments : list AudioSegment.t :=
  replicate 3
    {| AudioSegment.channels := 1; AudioSegment.frame_rate := 44100;
       AudioSegment.sample_width := 2;
       AudioSegment.frames := [[1]; [2]; [3]; [4]; [5]] |}.

(** A stereo segment and a segment of six channels. *)
Definition stereo_then_surround : list AudioSegment.t :=
  [ {| AudioSegment.channels := 2; AudioSegment.frame_rate := 4;
       AudioSegment.sample_width := 2; AudioSegment.frames := [[1; 1]] |};
    {| AudioSegment.channels := 6; AudioSegment.frame_rate := 4;
       AudioSegment.sample_width := 2; AudioSegment.frames := [[1; 1; 1; 1; 1; 1]] |} ].

(** The form with a custom seed image selected and nothing uploaded. *)
Definition nothing_uploaded : widgets :=
  {| w_device := "cuda";
     w_extension := "mp3";
     w_num_interpolation_steps := 2;
     w_num_inference_steps := 50;
     w_guidance := Qc_of_Z 7;
     w_init_image_name := "custom";
     w_init_image_file := None;
     w_show_individual_outputs := false;
     w_show_images := false;
     w_text_input := w_text_input bells_to_jazz;
     w_int_input := w_int_input bells_to_jazz;
     w_float_input := w_float_input bells_to_jazz |}.

(** Collaborators that cannot open a seed image. *)
Definition no_seed_image : collaborators nat string :=
  {| load_riffusion_checkpoint := load_riffusion_checkpoint demo;
     riffuse := riffuse demo;
     audio_bytes_from_spectrogram_image := audio_bytes_from_spectrogram_image demo;
     Image_open_rgb src x := (Err (ExternalError "Image.open"), x);
     from_file := from_file demo;
     export := export demo;
     audio_dsp := audio_dsp demo |}.

End Demo.

(** * Properties *)

(** ** The alpha scheduler *)

Section Scheduler.
Local Open Scope Qc_scope.

Lemma of_nat_to_nat (z : Z) : (0 ≤ z)%Z → Numeric.of_nat (Z.to_nat z) = Qc_of_Z z.
Proof. intros Hz. unfold Numeric.of_nat. by rewrite Z2Nat.id. Qed.

Lemma Qc_of_Z_neq_0 (z : Z) : z ≠ 0%Z → Qc_of_Z z ≠ 0.
Proof. intros Hz Heq. apply Hz, Z2Qc_inj. by rewrite Z2Qc_inj_0. Qed.

Lemma length_arange (n : nat) : length (Numeric.arange n) = n.
Proof. unfold Numeric.arange. by rewrite length_fmap, length_seq. Qed.

Lemma arange_lookup (n i : nat) :
  (i < n)%nat → Numeric.arange n !! i = Some (Numeric.of_nat i).
Proof.
  intros Hi. unfold Numeric.arange.
  rewrite list_lookup_fmap, lookup_seq_lt by done. done.
Qed.

(** One step: the scheduler returns the single sample [0.0]. *)
Lemma linspace_one : Numeric.linspace 0 1 1 = Ok [0].
Proof.
  reflexivity.
Qed.

(** Several steps: the samples are [i * step + 0.0], the last is [1.0]. *)
Lemma linspace_many (N : Z) :
  (1 < N)%Z →
  Numeric.linspace 0 1 N =
    Ok (<[pred (Z.to_nat N) := 1]>
          ((λ v, v * (1 / Qc_of_Z (N - 1)) + 0) <$> Numeric.arange (Z.to_nat N))).
Proof.
  intros HN. unfold Numeric.linspace.
  destruct (decide (N < 0)%Z) as [|_]; [lia|].
  destruct (decide (0 < N - 1)%Z) as [_|]; [|lia].
  destruct (decide (1 < N)%Z) as [_|]; [|lia].
  assert (Hd : 1 - 0 = 1) by (apply Qc_is_canon; reflexivity).
  rewrite Hd.
  destruct (decide (1 / Qc_of_Z (N - 1) = 0)) as [Hz|_].
  - exfalso. assert (Hne : Qc_of_Z (N - 1) ≠ 0) by (apply Qc_of_Z_neq_0; lia).
    apply (f_equal (λ x, x * Qc_of_Z (N - 1))) in Hz.
    rewrite Qcmult_0_l in Hz. unfold Qcdiv in Hz.
    rewrite <-Qcmult_assoc, Qcmult_inv_l, Qcmult_1_l in Hz by done.
    by apply Q_apart_0_1.
  - rewrite <-list_fmap_compose, !length_fmap, length_arange. done.
Qed.

(** The value of sample [i] when there are several steps. *)
Lemma linspace_many_lookup (N : Z) (i : nat) :
  (1 < N)%Z → (Z.of_nat i < N)%Z →
  ∃ alphas, Numeric.linspace 0 1 N = Ok alphas ∧
    alphas !! i = Some (Numeric.of_nat i / Qc_of_Z (N - 1)).
Proof.
  intros HN Hi. eexists. split; [by apply linspace_many|].
  assert (Hne : Qc_of_Z (N - 1) ≠ 0) by (apply Qc_of_Z_neq_0; lia).
  destruct (decide (i = pred (Z.to_nat N))) as [->|Hlast].
  - rewrite list_lookup_insert_eq by (rewrite length_fmap, length_arange; lia).
    f_equal. replace (Numeric.of_nat (pred (Z.to_nat N))) with (Qc_of_Z (N - 1)).
    + unfold Qcdiv. by rewrite Qcmult_inv_r.
    + rewrite <-of_nat_to_nat by lia. f_equal. lia.
  - rewrite list_lookup_insert_ne by done.
    rewrite list_lookup_fmap, arange_lookup by lia. simpl. f_equal.
    rewrite Qcplus_0_r. unfold Qcdiv. by rewrite Qcmult_1_l.
Qed.

Lemma length_linspace (N : Z) alphas :
  Numeric.linspace 0 1 N = Ok alphas → (0 ≤ N)%Z ∧ length alphas = Z.to_nat N.
Proof.
  unfold Numeric.linspace. intros H.
  destruct (decide (N < 0)%Z); [done|]. split; [lia|].
  injection H as <-.
  repeat case_decide; rewrite ?length_insert, !length_fmap;
    rewrite ?length_fmap; apply length_arange.
Qed.

Lemma of_nat_div_lt (i j : nat) (d : Z) :
  (0 < d)%Z → (i < j)%nat →
  Numeric.of_nat i / Qc_of_Z d < Numeric.of_nat j / Qc_of_Z d.
Proof.
  intros Hd Hij. unfold Qcdiv. apply Qcmult_lt_compat_r.
  - assert (H0 : 0 < Qc_of_Z d) by (rewrite <-Z2Qc_inj_0; apply (proj1 (Z2Qc_inj_lt _ _)); lia).
    destruct (Qclt_le_dec 0 (/ Qc_of_Z d)) as [|Hle]; [done|exfalso].
    assert (H1 : / Qc_of_Z d * Qc_of_Z d ≤ 0 * Qc_of_Z d)
      by (apply Qcmult_le_compat_r; [done|by apply Qclt_le_weak]).
    rewrite Qcmult_inv_l, Qcmult_0_l in H1 by (by apply not_symmetry, Qclt_not_eq).
    by apply (Qcle_not_lt _ _ H1).
  - unfold Numeric.of_nat. apply (proj1 (Z2Qc_inj_lt _ _)). lia.
Qed.

Lemma of_nat_0_div (d : Z) : Numeric.of_nat 0 / Qc_of_Z d = 0.
Proof.
  unfold Numeric.of_nat, Qcdiv. change (Z.of_nat 0) with 0%Z.
  by rewrite Z2Qc_inj_0, Qcmult_0_l.
Qed.

Lemma Qc_of_Z_div_diag (d : Z) : d ≠ 0%Z → Qc_of_Z d / Qc_of_Z d = 1.
Proof. intros Hd. unfold Qcdiv. by rewrite Qcmult_inv_r by by apply Qc_of_Z_neq_0. Qed.

(** The samples of a schedule of several steps, all at once. *)
Lemma linspace_many_spec (N : Z) :
  (1 < N)%Z →
  ∃ alphas, Numeric.linspace 0 1 N = Ok alphas ∧
    length alphas = Z.to_nat N ∧
    ∀ i : nat, (Z.of_nat i < N)%Z →
      alphas !! i = Some (Numeric.of_nat i / Qc_of_Z (N - 1)).
Proof.
  intros HN. destruct (linspace_many_lookup N 0 HN) as (alphas & Hrun & _); [lia|].
  exists alphas. split; [done|]. split; [by apply length_linspace|].
  intros i Hi. destruct (linspace_many_lookup N i HN Hi) as (alphas' & Hrun' & Hi').
  congruence.
Qed.

(** Whatever the step count, the samples increase strictly. *)
Lemma linspace_increasing (N : Z) (alphas : list Qc) :
  Numeric.linspace 0 1 N = Ok alphas →
  ∀ (i j : nat) (x y : Qc),
    (i < j)%nat → alphas !! i = Some x → alphas !! j = Some y → x < y.
Proof.
  intros Hrun i j x y Hij Hi Hj.
  assert (Hlen := length_linspace _ _ Hrun).
  apply lookup_lt_Some in Hi as Hi'. apply lookup_lt_Some in Hj as Hj'.
  destruct (linspace_many_spec N) as (alphas' & Hrun' & _ & Hval); [lia|].
  assert (alphas' = alphas) as -> by congruence.
  rewrite Hval in Hi, Hj by lia. simplify_eq.
  apply of_nat_div_lt; lia.
Qed.

Lemma linspace_NoDup (N : Z) (alphas : list Qc) :
  Numeric.linspace 0 1 N = Ok alphas → NoDup alphas.
Proof.
  intros Hrun. apply NoDup_alt. intros i j x Hi Hj.
  destruct (Nat.lt_total i j) as [Hlt|[->|Hlt]]; [|done|].
  - by destruct (Qclt_not_eq _ _ (linspace_increasing _ _ Hrun _ _ _ _ Hlt Hi Hj)).
  - by destruct (Qclt_not_eq _ _ (linspace_increasing _ _ Hrun _ _ _ _ Hlt Hj Hi)).
Qed.

(** The schedule of one step or more. *)
Lemma linspace_unit_spec (N : Z) :
  (1 ≤ N)%Z →
  ∃ alphas : list Qc,
    Numeric.linspace 0 1 N = Ok alphas ∧
    Z.of_nat (length alphas) = N ∧
    (N = 1%Z → alphas = [0]) ∧
    (∀ i : nat, (1 < N)%Z → (Z.of_nat i < N)%Z →
       alphas !! i = Some (Numeric.of_nat i / Qc_of_Z (N - 1))) ∧
    (∀ (i j : nat) (x y : Qc), alphas !! i = Some x → alphas !! j = Some y →
       ((i ≤ j)%nat → x ≤ y) ∧ ((i < j)%nat → x < y)) ∧
    head alphas = Some 0 ∧
    last alphas = Some (if decide (N = 1%Z) then 0 else 1).
Proof.
  intros Hlo.
  destruct (decide (N = 1%Z)) as [->|Hne].
  - exists [0]. split; [apply linspace_one|]. split; [done|]. split; [done|].
    split; [intros; lia|]. split; [|by auto].
    intros [|i] [|j] x y Hi Hj; simplify_eq/=.
    split; [intros _; apply Qcle_refl|lia].
  - destruct (linspace_many_spec N) as (alphas & Hrun & Hlen & Hval); [lia|].
    exists alphas. split; [done|]. split; [lia|]. split; [done|].
    split; [auto|]. split; [|split].
    + intros i j x y Hi Hj. split.
      * intros Hle. destruct (decide (i = j)) as [->|]; [|apply Qclt_le_weak].
        -- rewrite Hi in Hj. injection Hj as ->. apply Qcle_refl.
        -- eapply linspace_increasing; [done| |done..]. lia.
      * intros Hlt. by eapply linspace_increasing.
    + rewrite head_lookup, Hval by lia. f_equal. apply of_nat_0_div.
    + rewrite last_lookup, Hlen, Hval by lia. f_equal.
      replace (Numeric.of_nat (pred (Z.to_nat N))) with (Qc_of_Z (N - 1)).
      * apply Qc_of_Z_div_diag. lia.
      * rewrite <-of_nat_to_nat by lia. f_equal. lia.
Qed.

(** The schedule of ten steps: what the page shows and what it passes on. *)
Example alphas_10_shown :
  match Numeric.linspace 0 1 10 with
  | Ok alphas => alphas_line alphas
  | Err _ => ""
  end = "**Alphas** : [0.00, 0.11, 0.22, 0.33, 0.44, 0.56, 0.67, 0.78, 0.89, 1.00]"%string.
Proof. vm_compute. reflexivity. Qed.

Example alphas_10_passed :
  match Numeric.linspace 0 1 10 with
  | Ok alphas => this <$> alphas
  | Err _ => []
  end = [0; 1 # 9; 2 # 9; 1 # 3; 4 # 9; 5 # 9; 2 # 3; 7 # 9; 8 # 9; 1]%Q.
Proof. vm_compute. reflexivity. Qed.

End Scheduler.

(** ** The monad of the page *)

Section MonadFacts.
Context {Ext : Type}.
Implicit Types s : state Ext.

Lemma bind_run {A B} (m : M Ext A) (k : A → M Ext B) s :
  (m ≫= k) s =
    match m s with
    | (Val a, s1) => k a s1
    | (Returned, s1) => (Returned, s1)
    | (Raised e, s1) => (Raised e, s1)
    end.
Proof. reflexivity. Qed.

(** A sequence ends with a value only if both parts do. *)
Lemma bind_val {A B} (m : M Ext A) (k : A → M Ext B) s b s' :
  (m ≫= k) s = (Val b, s') →
  ∃ a s1, m s = (Val a, s1) ∧ k a s1 = (Val b, s').
Proof.
  rewrite bind_run. destruct (m s) as [[a| |e] s1]; [eauto|done|done].
Qed.

Lemma lift_val {A} (r : result A) s a s' :
  lift r s = (Val a, s') → r = Ok a ∧ s' = s.
Proof. destruct r; intros [= <- <-] || intros [=]; done. Qed.

Lemma emit_run (e : event) s :
  emit e s = (Val tt, {| memo := memo s; log := log s ++ [e]; ext := ext s |}).
Proof. reflexivity. Qed.

Lemma call_val {A} (e : event) (f : Ext → result A * Ext) s a s' :
  call e f s = (Val a, s') →
  ∃ x, f (ext s) = (Ok a, x) ∧
       s' = {| memo := memo s; log := log s ++ [e]; ext := x |}.
Proof.
  unfold call. destruct (f (ext s)) as [[a'|e'] x]; simpl; [|done].
  intros [= <- <-]. eauto.
Qed.

(** *** What a computation adds to the log *)

Lemma emits_ret {A} P (a : A) : emits P (mret a : M Ext A).
Proof. intros s. exists []. by rewrite app_nil_r. Qed.

Lemma emits_return {A} P : emits P (return_ : M Ext A).
Proof. intros s. exists []. by rewrite app_nil_r. Qed.

Lemma emits_lift {A} P (r : result A) : emits P (lift r : M Ext A).
Proof. intros s. exists []. rewrite app_nil_r. by destruct r. Qed.

Lemma emits_emit P (e : event) : P e → emits P (emit e : M Ext unit).
Proof. intros He s. exists [e]. split; [done|]. by constructor. Qed.

Lemma emits_call {A} P (e : event) (f : Ext → result A * Ext) :
  P e → emits P (call e f).
Proof.
  intros He s. exists [e]. split; [|by constructor].
  unfold call. by destruct (f (ext s)) as [[a|e'] x].
Qed.

Lemma emits_bind {A B} P (m : M Ext A) (k : A → M Ext B) :
  emits P m → (∀ a, emits P (k a)) → emits P (m ≫= k).
Proof.
  intros Hm Hk s. rewrite bind_run.
  destruct (Hm s) as (l1 & Hl1 & HP1).
  destruct (m s) as [[a| |e] s1]; simpl in *; [|by eauto..].
  destruct (Hk a s1) as (l2 & Hl2 & HP2).
  exists (l1 ++ l2). rewrite Hl2, Hl1, (assoc_L (++)). split; [done|].
  by apply Forall_app.
Qed.

Lemma emits_when P (b : bool) (m : M Ext unit) : emits P m → emits P (when b m).
Proof. destruct b; [done|]. intros _. apply emits_ret. Qed.

Lemma emits_memo_read P key : emits P (memo_read key : M Ext _).
Proof. intros s. exists []. by rewrite app_nil_r. Qed.

Lemma emits_memo_write P key v : emits P (memo_write key v : M Ext _).
Proof. intros s. exists []. by rewrite app_nil_r. Qed.

Lemma emits_experimental_memo P f key :
  emits P (f key) → emits P (experimental_memo f key : M Ext _).
Proof.
  intros Hf. unfold experimental_memo.
  apply emits_bind; [apply emits_memo_read|]. intros [v|]; [apply emits_ret|].
  apply emits_bind; [done|]. intros v.
  apply emits_bind; [apply emits_memo_write|]. intros _. apply emits_ret.
Qed.

End MonadFacts.

(** ** The endpoints *)

Section PromptInputs.

Lemma get_prompt_inputs_lookup (w : widgets) (key : string) (cols : bool) :
  let p := get_prompt_inputs w key false cols in
  p !! "prompt" = Some (VStr (w_text_input w ("prompt_" +:+ key))) ∧
  p !! "seed" = Some (VInt (w_int_input w ("seed_" +:+ key))) ∧
  p !! "denoising" = Some (VFloat (w_float_input w ("denoising_" +:+ key))) ∧
  p !! "negative_prompt" = None.
Proof. unfold get_prompt_inputs. by simplify_map_eq. Qed.

Lemma PromptInput_new_endpoint (w : widgets) (key : string) (cols : bool) :
  PromptInput_new (w_guidance w) (get_prompt_inputs w key false cols)
  = Ok (endpoint w key).
Proof.
  destruct (get_prompt_inputs_lookup w key cols) as (Hp & Hs & Hd & Hn).
  unfold PromptInput_new. by rewrite Hp, Hs, Hd, Hn.
Qed.

End PromptInputs.

(** ** The events of a run *)

Section RunEvents.
Context {Ext Pipeline : Type} (C : collaborators Ext Pipeline).
Implicit Types s : state Ext.

Ltac emits_go :=
  repeat first
    [ apply emits_ret | apply emits_return | apply emits_lift
    | apply emits_memo_read | apply emits_memo_write
    | apply emits_when
    | apply emits_bind; [|intros] ].

Lemma emits_weaken {A} (P Q : event → Prop) (m : M Ext A) :
  (∀ e, P e → Q e) → emits P m → emits Q m.
Proof.
  intros HPQ Hm s. destruct (Hm s) as (added & Hlog & HP).
  exists added. split; [done|]. by eapply Forall_impl.
Qed.

(** After validation the page behaves as [interpolate] on the two
    endpoints of the form. *)
Lemma render_interpolation_run (w : widgets) s :
  render_interpolation C w s =
    if bool_decide (prompt (endpoint w "a") = "")
       || bool_decide (prompt (endpoint w "b") = "")
    then (Returned,
          {| memo := memo s;
             log := log s ++ [st_info "Enter both prompts to interpolate between them"];
             ext := ext s |})
    else interpolate C w (endpoint w "a") (endpoint w "b") s.
Proof.
  unfold render_interpolation.
  rewrite !PromptInput_new_endpoint. simpl.
  do 2 (rewrite bind_run; simpl). by case_match.
Qed.

Lemma open_init_image_run (w : widgets) s :
  open_init_image C w s =
    match selected_source w with
    | None =>
        (Returned, {| memo := memo s;
                      log := log s ++ [st_info "Upload a custom seed image"];
                      ext := ext s |})
    | Some src => call (ev_image_open src) (Image_open_rgb C src) s
    end.
Proof.
  unfold open_init_image, selected_source.
  case_bool_decide; [|done]. by destruct (w_init_image_file w).
Qed.

(** The body of the cached function only calls the three collaborators,
    and runs the pipeline on its own arguments. *)
Lemma run_interpolation_body_emits (key : memo_key) :
  emits (λ e, is_inference_event e ∧
              ∀ inputs img, e = ev_riffuse inputs img → inputs = key.1.1.1 ∧ img = key.1.1.2)
        (run_interpolation_body C key).
Proof.
  destruct key as [[[inputs img] device] extension]. simpl.
  emits_go; apply emits_call; (split; [done|]); intros ?? [=]; by subst.
Qed.

Lemma run_interpolation_emits (w : widgets) (img : Image) (alphas : list Qc) (x : Qc) :
  x ∈ alphas →
  emits (run_event w img alphas)
    (run_interpolation C (make_inputs w (endpoint w "a") (endpoint w "b") x) img
                       (w_device w) (w_extension w)).
Proof.
  intros Hx. unfold run_interpolation.
  apply emits_bind; [apply emits_emit; simpl; by exists x|intros _].
  apply emits_bind.
  - apply emits_experimental_memo.
    eapply emits_weaken; [|apply run_interpolation_body_emits].
    intros e [He Hr]. destruct e; try done. simpl.
    destruct (Hr _ _ eq_refl) as [-> ->]. by exists x.
  - intros v. apply emits_bind; [|intros _; apply emits_ret].
    apply emits_emit. simpl. by exists x.
Qed.

Lemma steps_emits (w : widgets) (img : Image) (alphas : list Qc) (total : nat) :
  ∀ (rest : list Qc) (i : nat) image_list audio_bytes_list,
    rest ⊆ alphas →
    emits (run_event w img alphas)
      (steps C w (endpoint w "a") (endpoint w "b") img total i rest
             image_list audio_bytes_list).
Proof.
  induction rest as [|x rest IH]; intros i il al Hsub; simpl.
  - apply emits_ret.
  - assert (Hx : x ∈ alphas) by (apply Hsub; left).
    assert (Hrest : rest ⊆ alphas) by (intros y Hy; apply Hsub; by right).
    apply emits_bind.
    { apply emits_when, emits_emit. simpl. by exists x. }
    intros _. apply emits_bind; [by apply run_interpolation_emits|].
    intros [image audio_bytes]. apply emits_bind; [|intros _; by apply IH].
    emits_go; by apply emits_emit.
Qed.

Lemma decode_all_emits (P : event → Prop) (audio_bytes_list : list bytes) :
  (∀ b, P (ev_from_file b)) → emits P (decode_all C audio_bytes_list).
Proof.
  intros HP. induction audio_bytes_list as [|b rest IH]; simpl; emits_go; [|done].
  by apply emits_call.
Qed.

Lemma final_output_emits (w : widgets) (img : Image) (alphas : list Qc) a b al :
  emits (run_event w img alphas) (final_output C w a b al).
Proof.
  unfold final_output. emits_go;
    first [by apply emits_emit | by apply emits_call | by apply decode_all_emits].
Qed.

(** Every call of the cached function in a run, however the run ends, is
    the step of a coefficient of the schedule, on the image opened from
    the selected source. *)
Lemma interpolate_events (w : widgets) s :
  ∃ added,
    log (interpolate C w (endpoint w "a") (endpoint w "b") s).2 = log s ++ added ∧
    ((∀ e, e ∈ added → match e with
                        | st_write _ | st_info _ | ev_image_open _ => True
                        | _ => False
                        end)
     ∨ ∃ alphas src img x,
         Numeric.linspace 0 1 (w_num_interpolation_steps w) = Ok alphas ∧
         selected_source w = Some src ∧
         Image_open_rgb C src (ext s) = (Ok img, x) ∧
         Forall (run_event w img alphas) added).
Proof.
  unfold interpolate. rewrite bind_run.
  destruct (Numeric.linspace 0 1 (w_num_interpolation_steps w)) as [alphas|e] eqn:Hlin;
    simpl.
  2:{ exists []. rewrite app_nil_r. split; [done|]. left. by intros e' ?%elem_of_nil. }
  rewrite bind_run, emit_run. cbv iota.
  rewrite bind_run, open_init_image_run.
  destruct (selected_source w) as [src|] eqn:Hsrc.
  2:{ eexists [_; _]. simpl. rewrite <-(assoc_L (++)). split; [done|]. left.
      intros e He. by repeat (apply elem_of_cons in He as [->|He]); [..|apply elem_of_nil in He]. }
  unfold call. simpl.
  destruct (Image_open_rgb C src (ext s)) as [[img|e] x] eqn:Hopen; simpl.
  2:{ eexists [_; _]. rewrite <-(assoc_L (++)). split; [done|]. left.
      intros e' He. by repeat (apply elem_of_cons in He as [->|He]); [..|apply elem_of_nil in He]. }
  match goal with |- context [ (?m ≫= ?k) ?s1 ] =>
    destruct (emits_bind (run_event w img alphas) m k) with (s := s1)
      as (added & Hlog & Hev) end.
  { by apply steps_emits. }
  { intros [il al]. apply final_output_emits. }
  exists ([st_write (alphas_line alphas); ev_image_open src] ++ added).
  split.
  - etransitivity; [exact Hlog|]. simpl. by rewrite <-!(assoc_L (++)).
  - right. exists alphas, src, img, x. repeat split; try done.
    apply Forall_app. split; [|done]. by repeat constructor.
Qed.

End RunEvents.

(** ** Runs that complete *)

Section CompleteRuns.
Context {Ext Pipeline : Type} (C : collaborators Ext Pipeline).
Implicit Types s : state Ext.

Lemma step_calls_app (l1 l2 : list event) :
  step_calls (l1 ++ l2) = step_calls l1 ++ step_calls l2.
Proof. apply filter_app. Qed.

Lemma requests_of_app (l1 l2 : list event) :
  requests_of (l1 ++ l2) = requests_of l1 ++ requests_of l2.
Proof. apply omap_app. Qed.

Lemma inference_events_no_step (l : list event) :
  Forall (λ e, is_inference_event e) l → step_calls l = [] ∧ requests_of l = [].
Proof.
  induction 1 as [|e l He _ [IH1 IH2]]; [done|].
  unfold step_calls, requests_of in *. simpl.
  destruct e; try done; simpl; by rewrite ?IH1, ?IH2.
Qed.

Lemma emit_val (e : event) s u s' :
  emit e s = (Val u, s') →
  s' = {| memo := memo s; log := log s ++ [e]; ext := ext s |}.
Proof. by intros [= _ <-]. Qed.

Lemma when_val (b : bool) (e : event) s u s' :
  when b (emit e) s = (Val u, s') →
  memo s' = memo s ∧ ext s' = ext s ∧ log s' = log s ++ (if b then [e] else []).
Proof.
  destruct b; simpl.
  - by intros ->%emit_val.
  - intros [= _ <-]. by rewrite app_nil_r.
Qed.

(** A call of the cached function that returns: it is entered, outside
    code may run on its behalf, it is left. *)
Lemma run_interpolation_val inputs img device extension s v s' :
  run_interpolation C inputs img device extension s = (Val v, s') →
  ∃ mid,
    log s' = log s ++ [enter_run_interpolation (inputs, img, device, extension)]
                   ++ mid
                   ++ [leave_run_interpolation (inputs, img, device, extension)] ∧
    Forall (λ e, is_inference_event e) mid.
Proof.
  unfold run_interpolation. intros H.
  apply bind_val in H as (u & s1 & H1%emit_val & H).
  apply bind_val in H as (v' & s2 & H2 & H).
  apply bind_val in H as (u' & s3 & H3%emit_val & [= -> ->]).
  destruct (emits_experimental_memo (λ e, is_inference_event e)
              (run_interpolation_body C) (inputs, img, device, extension)) with (s := s1)
    as (mid & Hmid & Hinf).
  { eapply emits_weaken; [|apply run_interpolation_body_emits]. by intros e [He _]. }
  rewrite H2 in Hmid. simpl in Hmid. exists mid. split; [|done].
  subst. simpl in *. rewrite Hmid. by rewrite <-!(assoc_L (++)).
Qed.

(** The part of the page shown for one step when individual outputs are
    requested. *)
Lemma show_step_val (w : widgets) (i total : nat) (x : Qc) image audio_bytes s u s' :
  when (w_show_individual_outputs w)
    (emit (st_write ("#### (" +:+ pretty (i + 1)%nat +:+ " / " +:+ pretty total
                     +:+ ") Alpha=" +:+ Numeric.format_f 2 x));;
     when (w_show_images w) (emit (st_image image));;
     emit (st_audio audio_bytes)) s = (Val u, s') →
  ∃ shown, log s' = log s ++ shown ∧ step_calls shown = [] ∧ requests_of shown = [] ∧
           memo s' = memo s ∧ ext s' = ext s ∧ riffuse_calls shown = [].
Proof.
  destruct (w_show_individual_outputs w); simpl.
  - intros H.
    apply bind_val in H as (? & s1 & ->%emit_val & H).
    apply bind_val in H as (? & s2 & (Hm & Hx & Hl)%when_val & ->%emit_val).
    simpl in *. eexists (_ :: (if w_show_images w then [_] else []) ++ [_]).
    rewrite Hl, Hm, Hx. split; [by rewrite <-!(assoc_L (++))|].
    by destruct (w_show_images w).
  - intros [= _ <-]. exists []. by rewrite app_nil_r.
Qed.

(** The loop, when it completes: one call of the cached function per
    coefficient, in the order of the schedule, each left before the next
    is entered. *)
Lemma steps_val (w : widgets) (a b : PromptInput) (img : Image) (total : nat) :
  ∀ (rest : list Qc) (i : nat) il al s il' al' s',
    steps C w a b img total i rest il al s = (Val (il', al'), s') →
    ∃ added,
      log s' = log s ++ added ∧
      step_calls added =
        (rest ≫= λ x,
           let key := (make_inputs w a b x, img, w_device w, w_extension w) in
           [enter_run_interpolation key; leave_run_interpolation key]) ∧
      requests_of added = make_inputs w a b <$> rest ∧
      length al' = (length al + length rest)%nat.
Proof.
  induction rest as [|x rest IH]; intros i il al s il' al' s' H; simpl in H.
  - injection H as <- <- <-. exists []. by rewrite app_nil_r, Nat.add_0_r.
  - apply bind_val in H as (? & s1 & (_ & _ & Hl1)%when_val & H).
    apply bind_val in H as ([image audio] & s2 & Hrun & H).
    apply bind_val in H as (? & s3 & Hshow & H).
    apply run_interpolation_val in Hrun as (mid & Hl2 & Hmid).
    apply show_step_val in Hshow as (shown & Hl3 & Hs1 & Hs2 & _ & _ & _).
    apply IH in H as (added & Hl4 & Hc & Hr & Hlen).
    apply inference_events_no_step in Hmid as [Hm1 Hm2].
    eexists. split.
    { rewrite Hl4, Hl3, Hl2, Hl1. rewrite <-!(assoc_L (++)). reflexivity. }
    rewrite length_app in Hlen. simpl in Hlen.
    split; [|split; [|simpl; lia]].
    + rewrite !step_calls_app, Hc, Hs1, Hm1. by case_bool_decide.
    + rewrite !requests_of_app, Hr, Hs2, Hm2. by case_bool_decide.
Qed.

Lemma BytesIO_fresh_write (data : bytes) :
  BytesIO_seek (export_into BytesIO_new data) 0 = {| buf := data; pos := 0 |}.
Proof.
  unfold export_into, BytesIO_seek, BytesIO_write, BytesIO_new. simpl.
  by rewrite drop_nil, app_nil_r.
Qed.

Lemma decode_all_val (al : list bytes) :
  ∀ s segs s',
    decode_all C al s = (Val segs, s') →
    memo s' = memo s ∧ log s' = log s ++ (ev_from_file <$> al) ∧
    length segs = length al.
Proof.
  induction al as [|b rest IH]; intros s segs s' H; simpl in H.
  - injection H as <- <-. by rewrite app_nil_r.
  - apply bind_val in H as (seg & s1 & (x & Hdec & ->)%call_val & H).
    apply bind_val in H as (segs' & s2 & (Hm & Hl & Hn)%IH & [= <- <-]).
    simpl in *. rewrite Hm, Hl, Hn. by rewrite <-(assoc_L (++)).
Qed.

(** The audio of a single step is decoded by one call of the decoder. *)
Lemma decode_all_single_val (audio : bytes) s segs s' :
  decode_all C [audio] s = (Val segs, s') →
  ∃ seg, segs = [seg] ∧ from_file C audio (ext s) = (Ok seg, ext s').
Proof.
  simpl. intros H.
  apply bind_val in H as (seg & s1 & (x & Hdec & ->)%call_val & H).
  injection H as <- <-. by exists seg.
Qed.

(** From ["#### Final Output"] on, when the run completes: the segments
    are decoded and stitched, the result is encoded once, and the page ends
    with the download button on the encoded stream. *)
Lemma final_output_val (w : widgets) (a b : PromptInput) (al : list bytes) s u s' :
  final_output C w a b al s = (Val u, s') →
  ∃ segs seg encoded s3,
    decode_all C al {| memo := memo s;
                       log := log s ++ [st_write "#### Final Output"];
                       ext := ext s |} = (Val segs, s3) ∧
    stitch C segs = Ok seg ∧
    export C seg (w_extension w) (ext s3) = (Ok encoded, ext s') ∧
    memo s' = memo s3 ∧
    log s' = log s3 ++
      [ev_export seg (w_extension w);
       st_write ("Duration: "
                 +:+ Binary64.format_f 3 (AudioSegment.duration_seconds seg)
                 +:+ " seconds");
       st_audio encoded;
       st_download_button (output_name a b (w_extension w))
                          {| buf := encoded; pos := 0 |}
                          (output_name a b (w_extension w))
                          ("audio/" +:+ w_extension w)].
Proof.
  unfold final_output. intros H.
  apply bind_val in H as (u1 & s1 & ->%emit_val & H).
  apply bind_val in H as (segs & s3 & Hdec & H).
  apply bind_val in H as (seg & s4 & [Hst ->]%lift_val & H).
  apply bind_val in H as (encoded & s5 & (xe & Hexp & ->)%call_val & H).
  apply bind_val in H as (u2 & s6 & ->%emit_val & H).
  apply bind_val in H as (u3 & s7 & ->%emit_val & H).
  apply emit_val in H as ->. rewrite !BytesIO_fresh_write. simpl.
  exists segs, seg, encoded, s3.
  repeat split; try done. by rewrite <-!(assoc_L (++)).
Qed.

(** A run that completes went through every stage. *)
Lemma interpolate_val (w : widgets) (a b : PromptInput) s u s' :
  interpolate C w a b s = (Val u, s') →
  ∃ alphas src img x il al s2,
    Numeric.linspace 0 1 (w_num_interpolation_steps w) = Ok alphas ∧
    selected_source w = Some src ∧
    Image_open_rgb C src (ext s) = (Ok img, x) ∧
    steps C w a b img (length alphas) 0 alphas [] []
          {| memo := memo s;
             log := (log s ++ [st_write (alphas_line alphas)]) ++ [ev_image_open src];
             ext := x |} = (Val (il, al), s2) ∧
    final_output C w a b al s2 = (Val u, s').
Proof.
  unfold interpolate. intros H.
  apply bind_val in H as (alphas & s0 & [Hlin ->]%lift_val & H).
  apply bind_val in H as (u1 & s1 & ->%emit_val & H).
  apply bind_val in H as (img & s2 & Himg & H).
  apply bind_val in H as ([il al] & s3 & Hsteps & H).
  rewrite open_init_image_run in Himg.
  destruct (selected_source w) as [src|]; [|done].
  apply call_val in Himg as (x & Hopen & ->). simpl in *.
  by exists alphas, src, img, x, il, al, s3.
Qed.

(** A run that completes made at least one step. *)
Lemma interpolate_val_steps (w : widgets) (a b : PromptInput) s u s' :
  interpolate C w a b s = (Val u, s') → (1 ≤ w_num_interpolation_steps w)%Z.
Proof.
  intros (alphas & src & img & x & il & al & s2 & Hlin & _ & _ & Hsteps & Hfin)
    %interpolate_val.
  apply steps_val in Hsteps as (_ & _ & _ & _ & Hlen).
  apply final_output_val in Hfin as (segs & seg & _ & s3 & Hdec & Hst & _).
  apply decode_all_val in Hdec as (_ & _ & Hn).
  apply length_linspace in Hlin as [? Hl].
  destruct segs as [|? ?]; [done|]. simpl in *. lia.
Qed.

End CompleteRuns.

(** ** The stitcher *)

Section Stitcher.
Context {Ext Pipeline : Type} (C : collaborators Ext Pipeline).
Local Open Scope Qc_scope.

(** Appending with no cross-fade a segment of the same format: the frames
    of the second follow the frames of the first, nothing is converted. *)
Lemma append_same_format (D : AudioSegment.dsp) (a b : AudioSegment.t) :
  AudioSegment.format_of a = AudioSegment.format_of b →
  AudioSegment.append D a b 0 =
    Ok (AudioSegment.spawn a (AudioSegment.frames a ++ AudioSegment.frames b)).
Proof.
  intros [= Hc Hr Hw].
  destruct a as [ca ra wa fa], b as [cb rb wb fb]. simpl in *. subst.
  unfold AudioSegment.append, AudioSegment.sync, AudioSegment.set_sample_width,
    AudioSegment.set_frame_rate, AudioSegment.set_channels. simpl.
  rewrite !Z.max_id.
  destruct (decide (cb = cb)) as [_|]; [simpl|done].
  destruct (decide (rb = rb)) as [_|]; [simpl|done].
  destruct (decide (wb = wb)) as [_|]; [simpl|done].
  done.
Qed.

Lemma concat_same_format (f : Z * Z * Z) (rest : list AudioSegment.t) :
  ∀ first : AudioSegment.t,
    AudioSegment.format_of first = f →
    Forall (λ seg, AudioSegment.format_of seg = f) rest →
    concat C first rest =
      Ok (AudioSegment.spawn first
            (AudioSegment.frames first ++ List.concat (AudioSegment.frames <$> rest))).
Proof.
  induction rest as [|seg rest IH]; intros first Hf Hrest; cbn [concat].
  - simpl. rewrite app_nil_r. by destruct first.
  - apply Forall_cons in Hrest as [Hseg Hrest].
    rewrite append_same_format by congruence.
    rewrite IH by done. simpl. by rewrite <-(assoc_L (++)).
Qed.

Lemma exact_duration_of_frames (s : AudioSegment.t) :
  exact_duration s =
    if decide (AudioSegment.frame_rate s = 0%Z) then 0
    else Qc_of_Z (Z.of_nat (length (AudioSegment.frames s)))
         / Qc_of_Z (AudioSegment.frame_rate s).
Proof. reflexivity. Qed.

(** The durations of segments of one frame rate add up to the duration
    of their frames put end to end. *)
Lemma total_exact_duration_same_rate (r : Z) (segs : list AudioSegment.t) :
  Forall (λ seg, AudioSegment.frame_rate seg = r) segs →
  total_exact_duration segs =
    if decide (r = 0%Z) then 0
    else Qc_of_Z (Z.of_nat (length (List.concat (AudioSegment.frames <$> segs))))
         / Qc_of_Z r.
Proof.
  induction 1 as [|seg segs Hr _ IH]; unfold total_exact_duration in *.
  - case_decide; [done|]. symmetry. apply (of_nat_0_div r).
  - rewrite fmap_cons. cbn [foldr]. rewrite IH, exact_duration_of_frames, Hr.
    case_decide; [by rewrite Qcplus_0_l|].
    rewrite fmap_cons. cbn [List.concat].
    rewrite length_app, Nat2Z.inj_add, Z2Qc_inj_add.
    unfold Qcdiv. by rewrite Qcmult_plus_distr_l.
Qed.

Lemma frame_count_concat (segs : list AudioSegment.t) :
  Z.of_nat (length (List.concat (AudioSegment.frames <$> segs)))
  = foldr Z.add 0%Z (AudioSegment.frame_count <$> segs).
Proof.
  induction segs as [|seg segs IH]; [done|].
  rewrite !fmap_cons. cbn [List.concat foldr].
  rewrite length_app, Nat2Z.inj_add. by rewrite IH.
Qed.

(** Stitching one segment or more of one format: nothing is converted or
    trimmed, the frames are put end to end in the order of the list. *)
Lemma stitch_same_format (f : Z * Z * Z) (segs : list AudioSegment.t) :
  segs ≠ [] →
  Forall (λ seg, AudioSegment.format_of seg = f) segs →
  ∃ out : AudioSegment.t,
    stitch C segs = Ok out ∧
    AudioSegment.format_of out = f ∧
    AudioSegment.frames out = List.concat (AudioSegment.frames <$> segs) ∧
    AudioSegment.frame_count out
      = foldr Z.add 0%Z (AudioSegment.frame_count <$> segs) ∧
    exact_duration out = total_exact_duration segs.
Proof.
  intros Hne Hf. destruct segs as [|first rest]; [done|].
  apply Forall_cons in Hf as Hf'. destruct Hf' as [Hfirst Hrest].
  eexists. split; [by eapply concat_same_format|].
  split; [done|]. split; [done|]. split.
  - apply (frame_count_concat (first :: rest)).
  - rewrite (total_exact_duration_same_rate f.1.2).
    + rewrite exact_duration_of_frames. simpl. destruct f as [[c r] sw].
      by injection Hfirst as _ -> _.
    + eapply Forall_impl; [exact Hf|]. by intros seg <-.
Qed.

End Stitcher.

(** ** The cache of the per-step inference *)

Section Memoization.
Context {Ext Pipeline : Type} (C : collaborators Ext Pipeline).
Implicit Types s : state Ext.

Lemma memo_lookup_app_l key (m1 m2 : list (memo_key * (Image * bytes))) v :
  memo_lookup key m1 = Some v → memo_lookup key (m1 ++ m2) = Some v.
Proof.
  induction m1 as [|[k v'] m1 IH]; [done|]. simpl. by case_decide.
Qed.

Lemma memo_lookup_app_r key (m1 : list (memo_key * (Image * bytes))) v :
  memo_lookup key m1 = None → memo_lookup key (m1 ++ [(key, v)]) = Some v.
Proof.
  induction m1 as [|[k v'] m1 IH]; simpl.
  - by rewrite decide_True.
  - by case_decide.
Qed.

(** *** Nothing the page does removes or changes an entry *)

Lemma memo_grows_here {A} (m : M Ext A) :
  (∀ s, memo (m s).2 = memo s) → memo_grows m.
Proof. intros H s. exists []. by rewrite app_nil_r. Qed.

Lemma memo_grows_bind {A B} (m : M Ext A) (k : A → M Ext B) :
  memo_grows m → (∀ a, memo_grows (k a)) → memo_grows (m ≫= k).
Proof.
  intros Hm Hk s. rewrite bind_run.
  destruct (Hm s) as (l1 & Hl1).
  destruct (m s) as [[a| |e] s1]; simpl in *; [|by eauto..].
  destruct (Hk a s1) as (l2 & Hl2).
  exists (l1 ++ l2). by rewrite Hl2, Hl1, (assoc_L (++)).
Qed.

Lemma memo_grows_call {A} (e : event) (f : Ext → result A * Ext) :
  memo_grows (call e f).
Proof.
  apply memo_grows_here. intros s. unfold call.
  by destruct (f (ext s)) as [[a|e'] x].
Qed.

Lemma memo_grows_lift {A} (r : result A) : memo_grows (lift r : M Ext A).
Proof. apply memo_grows_here. intros s. by destruct r. Qed.

Lemma memo_grows_when (b : bool) (m : M Ext unit) :
  memo_grows m → memo_grows (when b m).
Proof. destruct b; [done|]. intros _. by apply memo_grows_here. Qed.

Ltac grows_go :=
  repeat first
    [ apply memo_grows_call | apply memo_grows_lift
    | apply memo_grows_when
    | by apply memo_grows_here
    | apply memo_grows_bind; [|intros] ].

Lemma keeps_memo_bind {A B} (m : M Ext A) (k : A → M Ext B) :
  (∀ s, memo (m s).2 = memo s) → (∀ a s, memo (k a s).2 = memo s) →
  ∀ s, memo ((m ≫= k) s).2 = memo s.
Proof.
  intros Hm Hk s. rewrite bind_run. specialize (Hm s).
  destruct (m s) as [[a| |e] s1]; simpl in *; [|done..].
  by rewrite Hk.
Qed.

Lemma call_keeps_memo {A} (e : event) (f : Ext → result A * Ext) s :
  memo (call e f s).2 = memo s.
Proof. unfold call. by destruct (f (ext s)) as [[a|e'] x]. Qed.

Lemma run_interpolation_body_keeps_memo (key : memo_key) s :
  memo (run_interpolation_body C key s).2 = memo s.
Proof.
  destruct key as [[[inputs img] device] extension]. revert s.
  unfold run_interpolation_body.
  apply keeps_memo_bind; [apply call_keeps_memo|intros pipeline].
  apply keeps_memo_bind; [apply call_keeps_memo|intros image].
  apply keeps_memo_bind; [apply call_keeps_memo|by intros audio s].
Qed.

Lemma experimental_memo_grows (key : memo_key) :
  memo_grows (experimental_memo (run_interpolation_body C) key).
Proof.
  intros s. unfold experimental_memo.
  rewrite bind_run. simpl. destruct (memo_lookup key (memo s)) as [v|].
  { exists []. by rewrite app_nil_r. }
  rewrite bind_run. assert (Hb := run_interpolation_body_keeps_memo key s).
  destruct (run_interpolation_body C key s) as [[v| |e] s1]; simpl in *.
  - exists [(key, v)]. by rewrite Hb.
  - exists []. by rewrite app_nil_r.
  - exists []. by rewrite app_nil_r.
Qed.

Lemma run_interpolation_grows inputs img device extension :
  memo_grows (run_interpolation C inputs img device extension).
Proof.
  unfold run_interpolation.
  apply memo_grows_bind; [by apply memo_grows_here|intros _].
  apply memo_grows_bind; [apply experimental_memo_grows|intros v].
  apply memo_grows_bind; by intros; apply memo_grows_here.
Qed.

Lemma steps_grows (w : widgets) (a b : PromptInput) (img : Image) (total : nat) :
  ∀ (rest : list Qc) (i : nat) il al,
    memo_grows (steps C w a b img total i rest il al).
Proof.
  induction rest as [|x rest IH]; intros i il al; simpl.
  - by apply memo_grows_here.
  - apply memo_grows_bind; [apply memo_grows_when; by apply memo_grows_here|intros _].
    apply memo_grows_bind; [apply run_interpolation_grows|intros [image audio]].
    apply memo_grows_bind; [|intros _; apply IH].
    apply memo_grows_when.
    apply memo_grows_bind; [by apply memo_grows_here|intros _].
    apply memo_grows_bind; [|intros _; by apply memo_grows_here].
    apply memo_grows_when. by apply memo_grows_here.
Qed.

Lemma decode_all_grows (al : list bytes) : memo_grows (decode_all C al).
Proof. induction al as [|b rest IH]; simpl; grows_go. done. Qed.

Lemma render_interpolation_grows (w : widgets) :
  memo_grows (render_interpolation C w).
Proof.
  intros s. rewrite render_interpolation_run.
  case_match; [exists []; by rewrite app_nil_r|].
  revert s. unfold interpolate.
  apply memo_grows_bind; [apply memo_grows_lift|intros alphas].
  apply memo_grows_bind; [by apply memo_grows_here|intros _].
  apply memo_grows_bind.
  { intros s. rewrite open_init_image_run. destruct (selected_source w).
    - apply memo_grows_call.
    - exists []. by rewrite app_nil_r. }
  intros img. apply memo_grows_bind; [apply steps_grows|intros [il al]].
  unfold final_output.
  apply memo_grows_bind; [by apply memo_grows_here|intros _].
  apply memo_grows_bind; [apply decode_all_grows|intros segs].
  grows_go.
Qed.

(** Over the life of the process an entry of the cache stays what it is. *)
Lemma session_keeps_entries (ws : list widgets) :
  ∀ s, memo_extends s (session C ws s).
Proof.
  induction ws as [|w ws IH]; intros s key v Hv; simpl; [done|].
  apply IH. destruct (render_interpolation_grows w s) as (more & ->).
  by apply memo_lookup_app_l.
Qed.

(** *** Hits and misses *)

(** A call whose arguments are in the cache is answered from it: no
    outside code runs, nothing but the call itself is logged. *)
Lemma run_interpolation_hit inputs img device extension s v :
  memo_lookup (inputs, img, device, extension) (memo s) = Some v →
  run_interpolation C inputs img device extension s =
    (Val v,
     {| memo := memo s;
        log := log s ++ [enter_run_interpolation (inputs, img, device, extension);
                         leave_run_interpolation (inputs, img, device, extension)];
        ext := ext s |}).
Proof.
  intros Hv. unfold run_interpolation, experimental_memo, memo_read.
  do 3 (rewrite bind_run; cbn). rewrite Hv. cbn.
  rewrite bind_run. cbn. by rewrite <-(assoc_L (++)).
Qed.

(** The body, when it returns: the three collaborators ran once each. *)
Lemma run_interpolation_body_val inputs img device extension s v s' :
  run_interpolation_body C (inputs, img, device, extension) s = (Val v, s') →
  memo s' = memo s ∧
  log s' = log s ++
    [ev_load_riffusion_checkpoint device true;
     ev_riffuse inputs img;
     ev_audio_bytes_from_spectrogram_image
       v.1 {| min_frequency := 0; max_frequency := 10000 |} device extension].
Proof.
  unfold run_interpolation_body. intros H.
  apply bind_val in H as (pipeline & s1 & (x1 & _ & ->)%call_val & H).
  apply bind_val in H as (image & s2 & (x2 & _ & ->)%call_val & H).
  apply bind_val in H as (audio & s3 & (x3 & _ & ->)%call_val & [= <- <-]).
  simpl. by rewrite <-!(assoc_L (++)).
Qed.

Lemma memo_lookup_app_None key key' (m1 : list (memo_key * (Image * bytes))) v :
  memo_lookup key m1 = None → key ≠ key' →
  memo_lookup key (m1 ++ [(key', v)]) = None.
Proof.
  intros Hm Hne. induction m1 as [|[k v'] m1 IH]; simpl in *.
  - by rewrite decide_False.
  - case_decide; [done|]. by apply IH.
Qed.

Lemma riffuse_calls_app (l1 l2 : list event) :
  riffuse_calls (l1 ++ l2) = riffuse_calls l1 ++ riffuse_calls l2.
Proof. apply filter_app. Qed.

(** A call whose arguments are not in the cache, when it returns: the three
    collaborators ran once each inside it, and its value is stored. *)
Lemma run_interpolation_miss_val inputs img device extension s v s' :
  memo_lookup (inputs, img, device, extension) (memo s) = None →
  run_interpolation C inputs img device extension s = (Val v, s') →
  memo s' = memo s ++ [((inputs, img, device, extension), v)] ∧
  log s' = log s ++
    [enter_run_interpolation (inputs, img, device, extension);
     ev_load_riffusion_checkpoint device true;
     ev_riffuse inputs img;
     ev_audio_bytes_from_spectrogram_image
       v.1 {| min_frequency := 0; max_frequency := 10000 |} device extension;
     leave_run_interpolation (inputs, img, device, extension)].
Proof.
  unfold run_interpolation, experimental_memo. intros Hlook H.
  apply bind_val in H as (u1 & s1 & ->%emit_val & H).
  apply bind_val in H as (v' & s2 & H & H').
  apply bind_val in H' as (u2 & s3 & ->%emit_val & [= -> <-]).
  apply bind_val in H as (cached & s4 & [= <- <-] & H). simpl in H.
  rewrite Hlook in H.
  apply bind_val in H as (v1 & s5 & Hbody & H).
  apply bind_val in H as (u3 & s6 & [= _ <-] & [= -> <-]).
  apply run_interpolation_body_val in Hbody as [Hm Hl]. simpl in *.
  rewrite Hm, Hl. split; [done|]. by rewrite <-!(assoc_L (++)).
Qed.

(** The loop on a cache that holds none of its requests, when it completes:
    the diffusion pipeline ran once per coefficient, in order. *)
Lemma steps_val_fresh (w : widgets) (a b : PromptInput) (img : Image) (total : nat) :
  ∀ (rest : list Qc) (i : nat) il al s il' al' s',
    NoDup rest →
    (∀ x, x ∈ rest →
       memo_lookup (make_inputs w a b x, img, w_device w, w_extension w) (memo s) = None) →
    steps C w a b img total i rest il al s = (Val (il', al'), s') →
    ∃ added,
      log s' = log s ++ added ∧
      riffuse_calls added = (λ x, ev_riffuse (make_inputs w a b x) img) <$> rest.
Proof.
  induction rest as [|x rest IH]; intros i il al s il' al' s' Hnd Hfresh H; simpl in H.
  - injection H as <- <- <-. exists []. by rewrite app_nil_r.
  - apply NoDup_cons in Hnd as [Hx Hnd].
    apply bind_val in H as (u1 & s1 & (Hm1 & _ & Hl1)%when_val & H).
    apply bind_val in H as ([image audio] & s2 & Hrun & H).
    apply bind_val in H as (u2 & s3 & Hshow & H).
    apply run_interpolation_miss_val in Hrun as [Hm2 Hl2].
    2:{ rewrite Hm1. apply Hfresh. by left. }
    apply show_step_val in Hshow as (shown & Hl3 & _ & _ & Hm3 & _ & Hs).
    apply IH in H as (added & Hl4 & Hr); [|done|].
    2:{ intros y Hy. rewrite Hm3, Hm2, Hm1. apply memo_lookup_app_None.
        - apply Hfresh. by right.
        - intros [= ->]. done. }
    eexists. split.
    { rewrite Hl4, Hl3, Hl2, Hl1. rewrite <-!(assoc_L (++)). reflexivity. }
    rewrite !riffuse_calls_app, Hr, Hs. by case_bool_decide.
Qed.

(** A call that returns leaves its value in the cache, and ran the
    diffusion pipeline once (a miss) or not at all (a hit). *)
Lemma run_interpolation_val_cached inputs img device extension s v s' :
  run_interpolation C inputs img device extension s = (Val v, s') →
  memo_lookup (inputs, img, device, extension) (memo s') = Some v ∧
  ∃ added, log s' = log s ++ added ∧ (length (riffuse_calls added) ≤ 1)%nat.
Proof.
  unfold run_interpolation, experimental_memo. intros H.
  apply bind_val in H as (u1 & s1 & ->%emit_val & H).
  apply bind_val in H as (v' & s2 & H & H').
  apply bind_val in H' as (u2 & s3 & ->%emit_val & [= -> <-]).
  apply bind_val in H as (cached & s4 & [= <- <-] & H). simpl in H.
  destruct (memo_lookup _ (memo s)) as [v0|] eqn:Hlook.
  - injection H as -> <-. simpl. split; [done|].
    eexists [_; _]. split; [by rewrite <-(assoc_L (++))|simpl; lia].
  - apply bind_val in H as (v1 & s5 & Hbody & H).
    apply bind_val in H as (u3 & s6 & [= _ <-] & [= -> <-]).
    apply run_interpolation_body_val in Hbody as [Hm Hl]. simpl in *.
    rewrite Hm. split; [by apply memo_lookup_app_r|].
    eexists (_ :: [_; _; _] ++ [_]). rewrite Hl.
    split; [by rewrite <-!(assoc_L (++))|]. simpl. lia.
Qed.

(** C3. A call of the per-step inference that returned a result is never
    recomputed: a later call with equal arguments, after any number of
    further runs of the page in the same process, returns that same
    result from the cache; it runs no outside code (the log gains the call
    alone, the outside world and the cache are unchanged).  The first call
    ran the diffusion pipeline at most once, so the two calls together ran
    it at most once. *)
Theorem second_call_served_from_cache
    (inputs inputs' : InferenceInput) (img img' : Image)
    (device device' extension extension' : string)
    (s s1 : state Ext) (v : Image * bytes) (ws : list widgets) :
  run_interpolation C inputs img device extension s = (Val v, s1) →
  (inputs', img', device', extension') = (inputs, img, device, extension) →
  let key : memo_key := (inputs, img, device, extension) in
  let s2 := session C ws s1 in
  (∃ added, log s1 = log s ++ added ∧ (length (riffuse_calls added) ≤ 1)%nat) ∧
  run_interpolation C inputs' img' device' extension' s2 =
    (Val v,
     {| memo := memo s2;
        log := log s2 ++ [enter_run_interpolation key; leave_run_interpolation key];
        ext := ext s2 |}).
Proof.
  intros [Hcached Hfirst]%run_interpolation_val_cached [= -> -> -> ->] key s2.
  split; [done|]. apply run_interpolation_hit.
  by apply session_keeps_entries.
Qed.

End Memoization.

(** ** What the page guarantees *)

Section Claims.
Context {Ext Pipeline : Type} (C : collaborators Ext Pipeline).
Implicit Types s : state Ext.

Lemma plain_events_no_requests (added : list event) :
  (∀ e, e ∈ added → match e with
                     | st_write _ | st_info _ | ev_image_open _ => True
                     | _ => False
                     end) →
  requests_of added = [] ∧ step_calls added = [] ∧
  ∀ k, enter_run_interpolation k ∉ added.
Proof.
  intros H. split; [|split].
  - induction added as [|e l IH]; [done|].
    assert (He := H e ltac:(left)).
    specialize (IH ltac:(intros; apply H; by right)).
    destruct e; try done; exact IH.
  - induction added as [|e l IH]; [done|].
    assert (He := H e ltac:(left)).
    specialize (IH ltac:(intros; apply H; by right)).
    destruct e; try done; exact IH.
  - intros k Hk. by apply H in Hk.
Qed.

Lemma run_events_requests (w : widgets) (img : Image) (alphas : list Qc)
    (added : list event) :
  Forall (run_event w img alphas) added →
  (∀ r, r ∈ requests_of added →
     ∃ x, x ∈ alphas ∧ r = make_inputs w (endpoint w "a") (endpoint w "b") x) ∧
  (∀ k, enter_run_interpolation k ∈ added → ∃ x, x ∈ alphas ∧ k = step_key w img x).
Proof.
  intros Hev. split.
  - intros r Hr. unfold requests_of in Hr.
    apply list_elem_of_omap in Hr as (e & He & Hr).
    rewrite Forall_forall in Hev. apply Hev in He.
    destruct e as [| | | | | |[[[inputs ?] ?] ?]| | | | | | |]; simplify_eq/=.
    destruct He as (x & Hx & [= -> _ _ _]). eauto.
  - intros k Hk. rewrite Forall_forall in Hev. by apply Hev in Hk.
Qed.

(** What a run adds to the log, however it ends: nothing about requests,
    or events of a run on the opened seed image. *)
Lemma render_interpolation_events (w : widgets) s :
  ∃ added,
    log (render_interpolation C w s).2 = log s ++ added ∧
    ((∀ e, e ∈ added → match e with
                        | st_write _ | st_info _ | ev_image_open _ => True
                        | _ => False
                        end)
     ∨ ∃ alphas src img x,
         Numeric.linspace 0 1 (w_num_interpolation_steps w) = Ok alphas ∧
         selected_source w = Some src ∧
         Image_open_rgb C src (ext s) = (Ok img, x) ∧
         Forall (run_event w img alphas) added).
Proof.
  rewrite render_interpolation_run. case_match; [|apply interpolate_events].
  eexists [_]. split; [done|]. left.
  intros e He. by apply list_elem_of_singleton in He as ->.
Qed.

Lemma no_calls_in_decoding (l : list bytes) :
  step_calls (ev_from_file <$> l) = [] ∧
  requests_of (ev_from_file <$> l) = [] ∧
  riffuse_calls (ev_from_file <$> l) = [].
Proof. induction l as [|b l IH]; [done|]. exact IH. Qed.

(** The log of a run that completes: the schedule is shown, the seed image
    is opened, the steps are made, the output is produced. *)
Lemma complete_run_log (w : widgets) s u s' :
  render_interpolation C w s = (Val u, s') →
  ∃ (alphas : list Qc) (src : image_source) (img : Image) (stepped rest : list event),
    Numeric.linspace 0 1 (w_num_interpolation_steps w) = Ok alphas ∧
    (1 ≤ w_num_interpolation_steps w)%Z ∧
    log s' = log s ++ [st_write (alphas_line alphas); ev_image_open src]
                   ++ stepped ++ rest ∧
    step_calls stepped =
      (alphas ≫= λ x, [enter_run_interpolation (step_key w img x);
                       leave_run_interpolation (step_key w img x)]) ∧
    requests_of stepped = make_inputs w (endpoint w "a") (endpoint w "b") <$> alphas ∧
    ((∀ x, x ∈ alphas → memo_lookup (step_key w img x) (memo s) = None) →
     riffuse_calls stepped =
       (λ x, ev_riffuse (make_inputs w (endpoint w "a") (endpoint w "b") x) img)
         <$> alphas) ∧
    step_calls rest = [] ∧ requests_of rest = [] ∧ riffuse_calls rest = [].
Proof.
  rewrite render_interpolation_run. case_match; [done|]. intros Hrun.
  assert (HN := interpolate_val_steps C _ _ _ _ _ _ Hrun).
  apply interpolate_val in Hrun
    as (alphas & src & img & x & il & al & s2 & Hlin & _ & _ & Hsteps & Hfin).
  assert (Hsteps' := Hsteps).
  apply steps_val in Hsteps as (stepped & Hl & Hc & Hr & _).
  apply final_output_val in Hfin as (segs & seg & enc & s3 & Hdec & _ & _ & _ & Hl').
  apply decode_all_val in Hdec as (_ & Hl3 & _).
  destruct (no_calls_in_decoding al) as (Hno1 & Hno2 & Hno3).
  exists alphas, src, img, stepped. eexists.
  split; [done|]. split; [done|]. split.
  { rewrite Hl', Hl3. simpl. rewrite Hl. simpl. rewrite <-!(assoc_L (++)). reflexivity. }
  split; [done|]. split; [done|]. split.
  { intros Hfresh.
    apply steps_val_fresh in Hsteps' as (stepped' & Hl2 & Hrif);
      [|by eapply linspace_NoDup|done].
    rewrite Hl in Hl2. by apply app_inv_head in Hl2 as <-. }
  rewrite !step_calls_app, !requests_of_app, !riffuse_calls_app, Hno1, Hno2, Hno3.
  done.
Qed.



(** C4 (as the page does it). When the prompt of either endpoint is
    empty the page shows "Enter both prompts to interpolate between them"
    and returns: it raises nothing.  It does so before a request is built
    and before the cached function or any outside code is called: the log
    gains the message alone, the cache and the outside world are
    untouched. *)
Theorem empty_prompt_returns_early (w : widgets) s :
  prompt (endpoint w "a") = "" ∨ prompt (endpoint w "b") = "" →
  render_interpolation C w s =
    (Returned,
     {| memo := memo s;
        log := log s ++ [st_info "Enter both prompts to interpolate between them"];
        ext := ext s |}).
Proof.
  intros Hempty. rewrite render_interpolation_run.
  destruct Hempty as [-> | ->]; simpl; [done|].
  by rewrite orb_true_r.
Qed.

(** C5. A run that completes called the per-step inference (the cached
    function [run_interpolation]) exactly once per step of the schedule,
    [N >= 1] times, in the order of the strictly increasing coefficients;
    each call is left before the next is entered.  When the cache holds none
    of the requests of the run at its start (as in a fresh process), each of
    these calls ran the diffusion pipeline: it ran [N] times, in the same
    order. *)
Theorem inference_calls_sequential (w : widgets) s s' :
  render_interpolation C w s = (Val tt, s') →
  ∃ (alphas : list Qc) (img : Image) (added : list event),
    Numeric.linspace 0 1 (w_num_interpolation_steps w) = Ok alphas ∧
    (1 ≤ w_num_interpolation_steps w)%Z ∧
    Z.of_nat (length alphas) = w_num_interpolation_steps w ∧
    (∀ (i j : nat) (x y : Qc),
       (i < j)%nat → alphas !! i = Some x → alphas !! j = Some y → (x < y)%Qc) ∧
    log s' = log s ++ added ∧
    step_calls added =
      (alphas ≫= λ x, [enter_run_interpolation (step_key w img x);
                       leave_run_interpolation (step_key w img x)]) ∧
    Z.of_nat (length (requests_of added)) = w_num_interpolation_steps w ∧
    ((∀ x, x ∈ alphas → memo_lookup (step_key w img x) (memo s) = None) →
     riffuse_calls added =
       (λ x, ev_riffuse (make_inputs w (endpoint w "a") (endpoint w "b") x) img)
         <$> alphas).
Proof.
  intros (alphas & src & img & stepped & rest & Hlin & HN & Hlog & Hc & Hr & Hfresh
          & Hr1 & Hr2 & Hr3)%complete_run_log.
  assert (Hlen := length_linspace _ _ Hlin).
  exists alphas, img. eexists.
  split; [done|]. split; [done|]. split; [lia|].
  split; [by eapply linspace_increasing|]. split; [exact Hlog|].
  rewrite !step_calls_app, !requests_of_app, !riffuse_calls_app, Hc, Hr, Hr1, Hr2, Hr3.
  simpl. rewrite !app_nil_r, length_fmap. split; [done|]. split; [lia|done].
Qed.

(** C6. Within one run, however it ends, the requests passed to the
    per-step inference agree on the inference-step count, the seed-image
    identifier, the start endpoint and the end endpoint, and with them on
    the guidance scale, which both endpoints carry: two requests differ in
    [alpha] at most.  In a run that completes they are the requests of the
    schedule, one per coefficient, in order. *)
Theorem requests_differ_in_alpha_only (w : widgets) s :
  ∃ added,
    log (render_interpolation C w s).2 = log s ++ added ∧
    (∀ r1 r2, r1 ∈ requests_of added → r2 ∈ requests_of added →
       num_inference_steps r1 = num_inference_steps r2 ∧
       seed_image_id r1 = seed_image_id r2 ∧
       start r1 = start r2 ∧
       end_ r1 = end_ r2 ∧
       guidance (start r1) = w_guidance w ∧ guidance (end_ r1) = w_guidance w ∧
       guidance (start r2) = w_guidance w ∧ guidance (end_ r2) = w_guidance w) ∧
    (∀ u alphas,
       (render_interpolation C w s).1 = Val u →
       Numeric.linspace 0 1 (w_num_interpolation_steps w) = Ok alphas →
       requests_of added = make_inputs w (endpoint w "a") (endpoint w "b") <$> alphas).
Proof.
  destruct (render_interpolation_events w s) as (added & Hlog & Hev).
  exists added. split; [done|]. split.
  - destruct Hev as [Hplain | (alphas & src & img & x & _ & _ & _ & Hev)].
    + apply plain_events_no_requests in Hplain as (-> & _).
      by intros r1 r2 ?%elem_of_nil.
    + apply run_events_requests in Hev as [Hreq _].
      intros r1 r2 (x1 & _ & ->)%Hreq (x2 & _ & ->)%Hreq. done.
  - intros u alphas Hval Hlin.
    destruct (render_interpolation C w s) as [r s'] eqn:Hrun. simpl in *. subst r.
    apply complete_run_log in Hrun
      as (alphas' & src & img & stepped & rest & Hlin' & _ & Hlog' & _ & Hr & _
          & _ & Hrest & _).
    assert (alphas' = alphas) as -> by congruence.
    rewrite Hlog' in Hlog. apply app_inv_head in Hlog as <-.
    rewrite !requests_of_app, Hr, Hrest. simpl. by rewrite app_nil_r.
Qed.

(** C9. In every run, whichever seed image is selected or uploaded, every
    request passed to the per-step inference names the seed image
    ["og_beat"]; the image actually opened from the selected source is what
    the call receives as [init_image]. *)
Theorem seed_image_id_is_og_beat (w : widgets) s :
  ∃ added,
    log (render_interpolation C w s).2 = log s ++ added ∧
    ∀ inputs init_image device extension,
      enter_run_interpolation (inputs, init_image, device, extension) ∈ added →
      seed_image_id inputs = "og_beat" ∧
      ∃ src x,
        selected_source w = Some src ∧
        Image_open_rgb C src (ext s) = (Ok init_image, x).
Proof.
  destruct (render_interpolation_events w s) as (added & Hlog & Hev).
  exists added. split; [done|]. intros inputs init_image device extension Hin.
  destruct Hev as [Hplain | (alphas & src & img & x & _ & Hsrc & Hopen & Hev)].
  - apply plain_events_no_requests in Hplain as (_ & _ & Hno). by apply Hno in Hin.
  - apply run_events_requests in Hev as [_ Hkey].
    apply Hkey in Hin as (y & _ & [= -> -> _ _]). split; [done|]. eauto.
Qed.

(** C10. The page asks [get_prompt_inputs] for no negative prompt: the
    dict of either endpoint has no ["negative_prompt"] key, the endpoint
    built from it has no negative prompt, and so has neither endpoint of
    any request passed to the per-step inference. *)
Theorem negative_prompt_never_set (w : widgets) s :
  (∀ key cols,
     get_prompt_inputs w key false cols !! "negative_prompt" = None ∧
     ∃ p, PromptInput_new (w_guidance w) (get_prompt_inputs w key false cols) = Ok p ∧
          negative_prompt p = None) ∧
  ∃ added,
    log (render_interpolation C w s).2 = log s ++ added ∧
    ∀ r, r ∈ requests_of added →
      negative_prompt (start r) = None ∧ negative_prompt (end_ r) = None.
Proof.
  split.
  - intros key cols. split; [apply get_prompt_inputs_lookup|].
    exists (endpoint w key). split; [apply PromptInput_new_endpoint|done].
  - destruct (render_interpolation_events w s) as (added & Hlog & Hev).
    exists added. split; [done|].
    destruct Hev as [Hplain | (alphas & src & img & x & _ & _ & _ & Hev)].
    + apply plain_events_no_requests in Hplain as (-> & _).
      by intros r ?%elem_of_nil.
    + apply run_events_requests in Hev as [Hreq _].
      by intros r (y & _ & ->)%Hreq.
Qed.

Lemma prefix_space (c : ascii) (rest : string) :
  String.prefix " " (String c rest) = Ascii.eqb c " ".
Proof.
  cbn [String.prefix].
  destruct (Ascii.ascii_dec " " c) as [<-|Hc].
  - by destruct rest.
  - symmetry. apply Ascii.eqb_neq. congruence.
Qed.

Lemma replace_space_underscore (t : string) :
  replace " " "_" t = underscore_spaces t.
Proof.
  unfold replace. induction t as [|c rest IH]; [done|].
  cbn [replace_from underscore_spaces]. rewrite prefix_space.
  change (String.length " " - 1)%nat with 0%nat. rewrite IH.
  by destruct (Ascii.eqb c " ").
Qed.

(** C8. A run that completes ends with the download button.  Its name is
    prompt A with every space replaced by an underscore, an underscore,
    prompt B with every space replaced by an underscore, a dot and the
    chosen extension; its data is the stream the stitched segment was
    encoded into, positioned at its start, so that reading it gives the
    whole encoding. *)
Theorem output_is_packaged (w : widgets) s s' :
  render_interpolation C w s = (Val tt, s') →
  ∃ (seg : AudioSegment.t) (encoded : bytes) (x : Ext) (stream : BytesIO),
    let name :=
      underscore_spaces (w_text_input w "prompt_a") +:+ "_"
        +:+ underscore_spaces (w_text_input w "prompt_b") +:+ "."
        +:+ w_extension w in
    export C seg (w_extension w) x = (Ok encoded, ext s') ∧
    last (log s') =
      Some (st_download_button name stream name ("audio/" +:+ w_extension w)) ∧
    buf stream = encoded ∧ pos stream = 0%nat ∧
    BytesIO_read stream = encoded.
Proof.
  rewrite render_interpolation_run. case_match; [done|].
  intros (alphas & src & img & x & il & al & s2 & _ & _ & _ & _ & Hfin)%interpolate_val.
  apply final_output_val in Hfin as (segs & seg & enc & s3 & _ & _ & Hexp & _ & Hl).
  exists seg, enc, (ext s3), {| buf := enc; pos := 0 |}. simpl.
  split; [done|]. split; [|done].
  rewrite Hl. unfold output_name. rewrite !replace_space_underscore.
  by rewrite last_app.
Qed.

Lemma steps_single_val (w : widgets) (a b : PromptInput) (img : Image)
    (total i : nat) (x : Qc) s il al s' :
  steps C w a b img total i [x] [] [] s = (Val (il, al), s') →
  ∃ image audio s0 s1,
    run_interpolation C (make_inputs w a b x) img (w_device w) (w_extension w) s0
      = (Val (image, audio), s1) ∧
    ext s0 = ext s ∧ memo s0 = memo s ∧
    il = [image] ∧ al = [audio] ∧
    ext s' = ext s1 ∧ memo s' = memo s1.
Proof.
  simpl. intros H.
  apply bind_val in H as (u1 & s0 & (Hm0 & Hx0 & _)%when_val & H).
  apply bind_val in H as ([image audio] & s1 & Hrun & H).
  apply bind_val in H as (u2 & s2 & Hshow & [= <- <- <-]).
  apply show_step_val in Hshow as (_ & _ & _ & _ & Hm2 & Hx2 & _).
  by exists image, audio, s0, s1.
Qed.

(** C7 (as the page does it). In a run of a single step that completes,
    the stitched segment is the decoded audio of that step as it is: the
    audio is decoded once, no segment is appended, and that segment is
    encoded once.  The output offered for download is this encoding, the
    step's audio after a decoding and an encoding: it is the step's own
    bytes exactly when the encoder gives those bytes back, which the page
    does not check or ensure. *)
Theorem single_step_is_reencoded (w : widgets) s s' :
  w_num_interpolation_steps w = 1%Z →
  render_interpolation C w s = (Val tt, s') →
  ∃ (img image : Image) (audio encoded : bytes) (seg : AudioSegment.t)
    (s0 s1 : state Ext) (x : Ext) (before : list event),
    let name := output_name (endpoint w "a") (endpoint w "b") (w_extension w) in
    run_interpolation C (make_inputs w (endpoint w "a") (endpoint w "b") 0%Qc) img
                      (w_device w) (w_extension w) s0 = (Val (image, audio), s1) ∧
    from_file C audio (ext s1) = (Ok seg, x) ∧
    stitch C [seg] = Ok seg ∧
    export C seg (w_extension w) x = (Ok encoded, ext s') ∧
    log s' = before ++
      [st_write "#### Final Output";
       ev_from_file audio;
       ev_export seg (w_extension w);
       st_write ("Duration: "
                 +:+ Binary64.format_f 3 (AudioSegment.duration_seconds seg)
                 +:+ " seconds");
       st_audio encoded;
       st_download_button name {| buf := encoded; pos := 0 |} name
                          ("audio/" +:+ w_extension w)] ∧
    (encoded = audio ↔ export C seg (w_extension w) x = (Ok audio, ext s')).
Proof.
  intros HN. rewrite render_interpolation_run. case_match; [done|].
  intros (alphas & src & img & x & il & al & s2 & Hlin & _ & _ & Hsteps & Hfin)
    %interpolate_val.
  rewrite HN, linspace_one in Hlin. injection Hlin as <-.
  apply steps_single_val in Hsteps
    as (image & audio & s0 & s1 & Hrun & _ & _ & -> & -> & Hx & _).
  apply final_output_val in Hfin as (segs & seg & enc & s3 & Hdec & Hst & Hexp & _ & Hl).
  assert (Hdec' := Hdec). apply decode_all_val in Hdec' as (_ & Hl3 & _).
  apply decode_all_single_val in Hdec as (seg' & -> & Hdec). simpl in Hdec, Hst.
  injection Hst as ->.
  exists img, image, audio, enc, seg, s0, s1, (ext s3), (log s2). simpl.
  rewrite <-Hx. split; [done|]. split; [done|]. split; [done|]. split; [done|].
  split.
  - rewrite Hl, Hl3. simpl. by rewrite <-!(assoc_L (++)).
  - split; [by intros <-|]. intros Hback. rewrite Hexp in Hback. by injection Hback.
Qed.

End Claims.

(** ** The page at work *)

Lemma run_val_intro {Ext A} (m : M Ext A) (s : state Ext) (a : A) :
  (m s).1 = Val a → m s = (Val a, (m s).2).
Proof. destruct (m s) as [r s']. simpl. by intros ->. Qed.

Lemma empty_prompt_returns_early_witness :
  prompt (endpoint Demo.no_prompt_a "a") = "" ∧
  render_interpolation Demo.demo Demo.no_prompt_a (Demo.start_state 1) =
    (Returned,
     {| memo := [];
        log := [st_info "Enter both prompts to interpolate between them"];
        ext := 1%nat |}).
Proof.
  split; [reflexivity|].
  apply (empty_prompt_returns_early Demo.demo Demo.no_prompt_a (Demo.start_state 1)).
  left. reflexivity.
Defined.

(** C4 as stated fails: with prompt A empty the run ends by the [return]
    statement, no exception is raised. *)
Lemma empty_prompt_raises_nothing :
  prompt (endpoint Demo.no_prompt_a "a") = "" ∧
  ¬ ∃ e : exn,
      (render_interpolation Demo.demo Demo.no_prompt_a (Demo.start_state 1)).1 = Raised e.
Proof.
  split; [reflexivity|]. intros [e He]. vm_compute in He. discriminate He.
Qed.

Lemma inference_calls_sequential_witness :
  (render_interpolation Demo.demo Demo.bells_to_jazz (Demo.start_state 1)).1 = Val tt ∧
  ∃ (alphas : list Qc) (img : Image) (added : list event),
    Numeric.linspace 0 1 3 = Ok alphas ∧
    log (render_interpolation Demo.demo Demo.bells_to_jazz (Demo.start_state 1)).2
      = [] ++ added ∧
    step_calls added =
      (alphas ≫= λ x, [enter_run_interpolation (step_key Demo.bells_to_jazz img x);
                       leave_run_interpolation (step_key Demo.bells_to_jazz img x)]) ∧
    length (requests_of added) = 3%nat ∧
    riffuse_calls added =
      (λ x, ev_riffuse (make_inputs Demo.bells_to_jazz (endpoint Demo.bells_to_jazz "a")
                                    (endpoint Demo.bells_to_jazz "b") x) img)
        <$> alphas.
Proof.
  assert (H : (render_interpolation Demo.demo Demo.bells_to_jazz (Demo.start_state 1)).1
              = Val tt) by (vm_compute; reflexivity).
  split; [exact H|].
  destruct (inference_calls_sequential Demo.demo Demo.bells_to_jazz (Demo.start_state 1) _
              (run_val_intro _ _ _ H))
    as (alphas & img & added & Hlin & _ & _ & _ & Hlog & Hcalls & Hn & Hfresh).
  exists alphas, img, added.
  split; [exact Hlin|]. split; [exact Hlog|]. split; [exact Hcalls|].
  split; [apply Nat2Z.inj; exact Hn|].
  apply Hfresh. intros x _. reflexivity.
Defined.

Lemma second_call_served_from_cache_witness :
  ∃ v : Image * bytes,
    (run_interpolation Demo.demo Demo.first_request Demo.og_beat "cuda" "mp3"
       (Demo.start_state 1)).1 = Val v ∧
    (run_interpolation Demo.demo Demo.first_request Demo.og_beat "cuda" "mp3"
       (session Demo.demo [Demo.bells_to_jazz]
          (run_interpolation Demo.demo Demo.first_request Demo.og_beat "cuda" "mp3"
             (Demo.start_state 1)).2)).1 = Val v.
Proof.
  assert (H : ∃ v, (run_interpolation Demo.demo Demo.first_request Demo.og_beat
                      "cuda" "mp3" (Demo.start_state 1)).1 = Val v)
    by (eexists; vm_compute; reflexivity).
  destruct H as [v H]. exists v. split; [exact H|].
  destruct (second_call_served_from_cache Demo.demo
              Demo.first_request Demo.first_request Demo.og_beat Demo.og_beat
              "cuda" "cuda" "mp3" "mp3" (Demo.start_state 1) _ v [Demo.bells_to_jazz]
              (run_val_intro _ _ _ H) eq_refl) as [_ H2].
  exact (f_equal fst H2).
Defined.

(** A call that raised left nothing in the cache: the same call made again
    runs the diffusion pipeline again. *)
Example failed_call_is_retried :
  (run_interpolation Demo.demo Demo.first_request Demo.og_beat "cuda" "mp3"
     (Demo.start_state 0)).1 = Raised (ExternalError "riffuse") ∧
  length (riffuse_calls (log
    (run_interpolation Demo.demo Demo.first_request Demo.og_beat "cuda" "mp3"
       (run_interpolation Demo.demo Demo.first_request Demo.og_beat "cuda" "mp3"
          (Demo.start_state 0)).2).2)) = 2%nat.
Proof. split; vm_compute; reflexivity. Qed.

(** The page run twice on the same inputs: six calls of the cached function,
    three runs of the diffusion pipeline. *)
Example second_run_is_served_from_cache :
  length (requests_of (log (session Demo.demo [Demo.bells_to_jazz; Demo.bells_to_jazz]
                                    (Demo.start_state 1)))) = 6%nat ∧
  length (riffuse_calls (log (session Demo.demo [Demo.bells_to_jazz; Demo.bells_to_jazz]
                                      (Demo.start_state 1)))) = 3%nat.
Proof. split; vm_compute; reflexivity. Qed.

Lemma output_is_packaged_witness :
  (render_interpolation Demo.demo Demo.bells_to_jazz (Demo.start_state 1)).1 = Val tt ∧
  ∃ stream : BytesIO,
    last (log (render_interpolation Demo.demo Demo.bells_to_jazz (Demo.start_state 1)).2)
      = Some (st_download_button "church_bells_jazz.mp3" stream
                                 "church_bells_jazz.mp3" "audio/mp3") ∧
    pos stream = 0%nat ∧ BytesIO_read stream = buf stream.
Proof.
  assert (H : (render_interpolation Demo.demo Demo.bells_to_jazz (Demo.start_state 1)).1
              = Val tt) by (vm_compute; reflexivity).
  split; [exact H|].
  destruct (output_is_packaged Demo.demo Demo.bells_to_jazz (Demo.start_state 1) _
              (run_val_intro _ _ _ H))
    as (seg & encoded & x & stream & _ & Hlast & Hbuf & Hpos & Hread).
  exists stream. split; [exact Hlast|]. split; [exact Hpos|].
  exact (eq_trans Hread (eq_sym Hbuf)).
Defined.

Lemma single_step_is_reencoded_witness :
  w_num_interpolation_steps Demo.bells_to_jazz_once = 1 ∧
  (render_interpolation Demo.demo Demo.bells_to_jazz_once (Demo.start_state 1)).1
    = Val tt ∧
  ∃ (audio encoded : bytes) (seg : AudioSegment.t) (x x' : nat) (before : list event)
    (duration : string) (button : event),
    from_file Demo.demo audio x = (Ok seg, x') ∧
    stitch Demo.demo [seg] = Ok seg ∧
    export Demo.demo seg "mp3" x'
      = (Ok encoded,
         ext (render_interpolation Demo.demo Demo.bells_to_jazz_once
                (Demo.start_state 1)).2) ∧
    log (render_interpolation Demo.demo Demo.bells_to_jazz_once (Demo.start_state 1)).2
      = before ++ [st_write "#### Final Output"; ev_from_file audio;
                   ev_export seg "mp3"; st_write duration; st_audio encoded; button].
Proof.
  assert (HN : w_num_interpolation_steps Demo.bells_to_jazz_once = 1) by reflexivity.
  assert (H : (render_interpolation Demo.demo Demo.bells_to_jazz_once
                 (Demo.start_state 1)).1 = Val tt) by (vm_compute; reflexivity).
  split; [exact HN|]. split; [exact H|].
  destruct (single_step_is_reencoded Demo.demo Demo.bells_to_jazz_once (Demo.start_state 1)
              _ HN (run_val_intro _ _ _ H))
    as (img & image & audio & encoded & seg & s0 & s1 & x & before
        & _ & Hdec & Hst & Hexp & Hlog & _).
  exists audio, encoded, seg, (ext s1), x, before. do 2 eexists.
  split; [exact Hdec|]. split; [exact Hst|]. split; [exact Hexp|exact Hlog].
Defined.

(** With the codec of [Demo.demo], which gives back the bytes it decoded,
    the output of a single-step run is the audio of the step. *)
Example single_step_lossless :
  ∃ (image : Image) (audio : bytes) (stream : BytesIO) (name mime : string),
    (memo (render_interpolation Demo.demo Demo.bells_to_jazz_once
             (Demo.start_state 1)).2).*2 = [(image, audio)] ∧
    last (log (render_interpolation Demo.demo Demo.bells_to_jazz_once
                 (Demo.start_state 1)).2)
      = Some (st_download_button name stream name mime) ∧
    BytesIO_read stream = audio.
Proof.
  do 5 eexists. split; [vm_compute; reflexivity|].
  split; vm_compute; reflexivity.
Qed.

(** C7 as stated fails: with an encoder that loses the lowest bit of every
    sample, the output of a single-step run is not the audio of the step,
    byte for byte. *)
Lemma single_step_output_is_not_the_step_audio :
  w_num_interpolation_steps Demo.bells_to_jazz_once = 1 ∧
  (render_interpolation Demo.lossy Demo.bells_to_jazz_once (Demo.start_state 1)).1
    = Val tt ∧
  ∃ (image : Image) (audio : bytes) (stream : BytesIO) (name mime : string),
    (memo (render_interpolation Demo.lossy Demo.bells_to_jazz_once
             (Demo.start_state 1)).2).*2 = [(image, audio)] ∧
    last (log (render_interpolation Demo.lossy Demo.bells_to_jazz_once
                 (Demo.start_state 1)).2)
      = Some (st_download_button name stream name mime) ∧
    audio = [Byte.x01; Byte.x01; Byte.x02] ∧
    BytesIO_read stream = [Byte.x00; Byte.x00; Byte.x02] ∧
    BytesIO_read stream ≠ audio.
Proof.
  split; [reflexivity|]. split; [vm_compute; reflexivity|].
  do 5 eexists. split; [vm_compute; reflexivity|].
  split; [vm_compute; reflexivity|]. split; [reflexivity|].
  split; [vm_compute; reflexivity|]. vm_compute. discriminate.
Qed.

(** The three requests of "church bells" to "jazz": the coefficients, the
    seed-image identifier, the negative prompts. *)
Example bells_to_jazz_requests :
  (λ r, (this (alpha r), seed_image_id r,
         negative_prompt (start r), negative_prompt (end_ r)))
    <$> requests_of (log (render_interpolation Demo.demo Demo.bells_to_jazz
                            (Demo.start_state 1)).2)
  = [(0%Q, "og_beat", None, None);
     ((1 # 2)%Q, "og_beat", None, None);
     (1%Q, "og_beat", None, None)].
Proof. vm_compute. reflexivity. Qed.

(** With an uploaded seed image the requests still name ["og_beat"]; the
    uploaded image is what the calls receive. *)
Example uploaded_seed_image :
  log (render_interpolation Demo.demo Demo.bells_to_jazz_custom (Demo.start_state 1)).2
    ≫= (λ e, match e with
             | enter_run_interpolation (inputs, init_image, _, _) =>
                 [(seed_image_id inputs, im_data init_image)]
             | _ => []
             end)
  = [("og_beat", [Byte.x07; Byte.x08; Byte.x09]);
     ("og_beat", [Byte.x07; Byte.x08; Byte.x09])].
Proof. vm_compute. reflexivity. Qed.

(** What the page shows for each step when individual outputs are asked
    for. *)
Example individual_outputs_shown :
  log (render_interpolation Demo.demo Demo.bells_to_jazz_custom (Demo.start_state 1)).2
    ≫= (λ e, match e with st_write text => [text] | _ => [] end)
  = ["**Alphas** : [0.00, 1.00]";
     "#### (1 / 2) Alpha=0.00";
     "#### (2 / 2) Alpha=1.00";
     "#### Final Output";
     "Duration: 1.500 seconds"].
Proof. vm_compute. reflexivity. Qed.



(** The schedule of ten steps in doubles: what the page shows. *)
Example doubles_10_shown :
  match Binary64.linspace PrimFloat.zero PrimFloat.one 10 with
  | Ok doubles => Binary64.format_f 2 <$> doubles
  | Err _ => []
  end = ["0.00"; "0.11"; "0.22"; "0.33"; "0.44"; "0.56"; "0.67"; "0.78"; "0.89"; "1.00"].
Proof. vm_compute. reflexivity. Qed.

(** Beyond twenty steps the two decimals of a double and of the rational
    number it stands for can differ: [1 / 40] shows as 0.03, being a double
    above the fortieth, whose two decimals round to even. *)
Example fortieth_shown :
  Binary64.format_f 2 (PrimFloat.div PrimFloat.one (Binary64.of_Z 40)) = "0.03" ∧
  Numeric.format_f 2 (Q2Qc (1 # 40)) = "0.02".
Proof. split; vm_compute; reflexivity. Qed.

(** * Further properties of the page *)

(** ** The output name *)

Section FormAndName.

Lemma list_ascii_of_string_app (s1 s2 : string) :
  list_ascii_of_string (s1 +:+ s2)
  = list_ascii_of_string s1 ++ list_ascii_of_string s2.
Proof. induction s1 as [|c s1 IH]; [done|]. simpl. by rewrite IH. Qed.

Lemma length_string_app (s1 s2 : string) :
  String.length (s1 +:+ s2) = (String.length s1 + String.length s2)%nat.
Proof. induction s1 as [|c s1 IH]; [done|]. simpl. by rewrite IH. Qed.

Lemma underscore_spaces_no_space (t : string) :
  " "%char ∉ list_ascii_of_string (underscore_spaces t).
Proof.
  induction t as [|c t IH]; simpl; [by intros ?%elem_of_nil|].
  intros [Hc|Hin]%elem_of_cons; [|done].
  destruct (Ascii.eqb_spec c " ") as [->|Hne]; [discriminate Hc|by subst].
Qed.

Lemma length_underscore_spaces (t : string) :
  String.length (underscore_spaces t) = String.length t.
Proof. induction t as [|c t IH]; [done|]. simpl. by rewrite IH. Qed.

(** The name of the download has no space as long as the extension has
    none, whatever the prompts, and is as long as the two prompts and the
    extension together, plus the underscore and the dot. *)
Theorem output_name_has_no_space (a b : PromptInput) (extension : string) :
  " "%char ∉ list_ascii_of_string extension →
  (" "%char ∉ list_ascii_of_string (output_name a b extension)) ∧
  String.length (output_name a b extension)
    = (String.length (prompt a) + String.length (prompt b)
       + String.length extension + 2)%nat.
Proof.
  intros Hext. unfold output_name.
  assert (Hr := replace_space_underscore).
  rewrite !Hr. split.
  - rewrite !list_ascii_of_string_app. simpl.
    intros Hin. repeat (apply elem_of_app in Hin as [Hin|Hin]
                        || apply elem_of_cons in Hin as [Hin|Hin]);
      try discriminate Hin; try done;
      try (by eapply underscore_spaces_no_space).
  - rewrite !length_string_app, !length_underscore_spaces. simpl. lia.
Qed.

End FormAndName.

(** ** Runs that stop early *)

Section EarlyEnds.
Context {Ext Pipeline : Type} (C : collaborators Ext Pipeline).
Implicit Types s : state Ext.

Lemma render_interpolation_validated (w : widgets) s :
  prompt (endpoint w "a") ≠ "" → prompt (endpoint w "b") ≠ "" →
  render_interpolation C w s = interpolate C w (endpoint w "a") (endpoint w "b") s.
Proof.
  intros Ha Hb. rewrite render_interpolation_run.
  by rewrite !bool_decide_eq_false_2.
Qed.

(** With "custom" selected and no file uploaded the page shows the
    schedule, asks for the upload and returns: no image is opened, no step is
    made, the cache and the outside world are untouched. *)
Theorem custom_without_upload_returns (w : widgets) s :
  prompt (endpoint w "a") ≠ "" → prompt (endpoint w "b") ≠ "" →
  0 ≤ w_num_interpolation_steps w →
  w_init_image_name w = "custom" → w_init_image_file w = None →
  ∃ alphas,
    Numeric.linspace 0 1 (w_num_interpolation_steps w) = Ok alphas ∧
    render_interpolation C w s =
      (Returned,
       {| memo := memo s;
          log := log s ++ [st_write (alphas_line alphas);
                           st_info "Upload a custom seed image"];
          ext := ext s |}).
Proof.
  intros Ha Hb HN Hname Hfile.
  rewrite render_interpolation_validated by done.
  destruct (Numeric.linspace 0 1 (w_num_interpolation_steps w)) as [alphas|e] eqn:Hlin.
  2:{ unfold Numeric.linspace in Hlin. by rewrite decide_False in Hlin by lia. }
  exists alphas. split; [done|].
  unfold interpolate. rewrite Hlin, bind_run. simpl.
  rewrite bind_run, emit_run. cbv iota.
  rewrite bind_run, open_init_image_run.
  unfold selected_source. rewrite Hname, Hfile. simpl.
  by rewrite <-(assoc_L (++)).
Qed.

(** When the seed image cannot be opened the run ends with the exception of
    the opening, after the schedule was shown and before any step. *)
Theorem seed_image_error_aborts (w : widgets) s (src : image_source) (e : exn) (x : Ext) :
  prompt (endpoint w "a") ≠ "" → prompt (endpoint w "b") ≠ "" →
  0 ≤ w_num_interpolation_steps w →
  selected_source w = Some src →
  Image_open_rgb C src (ext s) = (Err e, x) →
  ∃ alphas,
    Numeric.linspace 0 1 (w_num_interpolation_steps w) = Ok alphas ∧
    render_interpolation C w s =
      (Raised e,
       {| memo := memo s;
          log := log s ++ [st_write (alphas_line alphas); ev_image_open src];
          ext := x |}).
Proof.
  intros Ha Hb HN Hsrc Hopen.
  rewrite render_interpolation_validated by done.
  destruct (Numeric.linspace 0 1 (w_num_interpolation_steps w)) as [alphas|e'] eqn:Hlin.
  2:{ unfold Numeric.linspace in Hlin. by rewrite decide_False in Hlin by lia. }
  exists alphas. split; [done|].
  unfold interpolate. rewrite Hlin, bind_run. simpl.
  rewrite bind_run, emit_run. cbv iota.
  rewrite bind_run, open_init_image_run, Hsrc.
  unfold call. simpl. rewrite Hopen. simpl.
  by rewrite <-(assoc_L (++)).
Qed.

(** A step count below the widget's minimum.  A negative count makes
    [np.linspace] raise before anything is shown.  With a count of zero the
    page opens the seed image, makes no step, and fails on
    [audio_segments[0]]. *)
Theorem fewer_than_one_step_raises (w : widgets) s :
  prompt (endpoint w "a") ≠ "" → prompt (endpoint w "b") ≠ "" →
  w_num_interpolation_steps w < 1 →
  (w_num_interpolation_steps w < 0 →
   ∃ msg, render_interpolation C w s = (Raised (ValueError msg), s)) ∧
  (w_num_interpolation_steps w = 0 →
   ∀ src img x,
     selected_source w = Some src →
     Image_open_rgb C src (ext s) = (Ok img, x) →
     render_interpolation C w s =
       (Raised (IndexError "list index out of range"),
        {| memo := memo s;
           log := log s ++ [st_write "**Alphas** : []"; ev_image_open src;
                            st_write "#### Final Output"];
           ext := x |})).
Proof.
  intros Ha Hb HN. split.
  - intros Hneg. rewrite render_interpolation_validated by done.
    unfold interpolate, Numeric.linspace. rewrite decide_True by done.
    eexists. rewrite bind_run. reflexivity.
  - intros H0 src img x Hsrc Hopen. rewrite render_interpolation_validated by done.
    unfold interpolate. rewrite H0.
    change (Numeric.linspace 0 1 0) with (Ok (@nil Qc)).
    rewrite bind_run. simpl.
    rewrite bind_run, emit_run. cbv iota.
    rewrite bind_run, open_init_image_run, Hsrc.
    unfold call. simpl. rewrite Hopen. simpl.
    rewrite bind_run. simpl. unfold final_output.
    rewrite bind_run, emit_run. cbv iota. rewrite bind_run. simpl.
    rewrite bind_run. simpl.
    by rewrite <-!(assoc_L (++)).
Qed.

End EarlyEnds.

(** ** The schedule and the stitcher, in general *)

Section ScheduleAndStitch.
Context {Ext Pipeline : Type} (C : collaborators Ext Pipeline).
Implicit Types s : state Ext.
Local Open Scope Qc_scope.

Lemma linspace_unit_interval (N : Z) (alphas : list Qc) :
  Numeric.linspace 0 1 N = Ok alphas → ∀ x, x ∈ alphas → 0 ≤ x ≤ 1.
Proof.
  intros Hlin x Hx. apply list_elem_of_lookup in Hx as [i Hi].
  assert (Hlen := length_linspace _ _ Hlin).
  apply lookup_lt_Some in Hi as Hi'.
  destruct (linspace_unit_spec N) as (alphas' & Hlin' & _ & _ & _ & Hord & Hhead & Hlast);
    [lia|].
  assert (alphas' = alphas) as -> by congruence.
  rewrite head_lookup in Hhead. rewrite last_lookup in Hlast. split.
  - apply (Hord 0%nat i 0 x Hhead Hi). lia.
  - assert (Hle : x ≤ if decide (N = 1%Z) then 0 else 1)
      by (apply (Hord i (pred (length alphas)) x _ Hi Hlast); lia).
    case_decide; [|done].
    eapply Qcle_trans; [exact Hle|]. by apply Qclt_le_weak.
Qed.

(** Every request passed to the per-step inference, in any run and however
    the run ends, has its [alpha] between 0 and 1. *)
Theorem request_alpha_in_unit_interval (w : widgets) s :
  ∃ added,
    log (render_interpolation C w s).2 = log s ++ added ∧
    ∀ r, r ∈ requests_of added → 0 ≤ alpha r ≤ 1.
Proof.
  destruct (render_interpolation_events C w s) as (added & Hlog & Hev).
  exists added. split; [done|].
  destruct Hev as [Hplain | (alphas & src & img & x & Hlin & _ & _ & Hev)].
  - apply plain_events_no_requests in Hplain as (-> & _).
    by intros r ?%elem_of_nil.
  - apply run_events_requests in Hev as [Hreq _].
    intros r (y & Hy & ->)%Hreq. simpl. by eapply linspace_unit_interval.
Qed.

(** Stitching fails on an empty list, with the [IndexError] of
    [audio_segments[0]]; and it fails in no other case as long as the
    segments have one format, for then [append] converts nothing.  Any
    other failure comes from bringing two segments of different formats
    to a common one. *)
Theorem stitch_fails_on_empty_or_conversion (segs : list AudioSegment.t) (e : exn) :
  (segs = [] → stitch C segs = Err (IndexError "list index out of range")) ∧
  (stitch C segs = Err e →
   (segs = [] ∧ e = IndexError "list index out of range")
   ∨ ∃ a b, a ∈ segs ∧ b ∈ segs ∧ AudioSegment.format_of a ≠ AudioSegment.format_of b).
Proof.
  split; [by intros ->|]. intros Herr.
  destruct segs as [|first rest]; [left; split; [done|]; by injection Herr|]. right.
  destruct (decide (Forall (λ seg, AudioSegment.format_of seg
                                   = AudioSegment.format_of first) rest)) as [Hsame|Hnot].
  - destruct (stitch_same_format C (AudioSegment.format_of first) (first :: rest))
      as (out & Hout & _); [done|by constructor|congruence].
  - apply not_Forall_Exists in Hnot; [|apply _].
    apply Exists_exists in Hnot as (seg & Hseg & Hne).
    exists first, seg. split; [by left|]. split; [by right|].
    intros Heq. by apply Hne.
Qed.

End ScheduleAndStitch.

(** ** The cached function, call by call *)

Section CachedCalls.
Context {Ext Pipeline : Type} (C : collaborators Ext Pipeline).
Implicit Types s : state Ext.

Lemma bind_not_returned {A B} (m : M Ext A) (k : A → M Ext B) :
  (∀ s, (m s).1 ≠ Returned) → (∀ a s, (k a s).1 ≠ Returned) →
  ∀ s, ((m ≫= k) s).1 ≠ Returned.
Proof.
  intros Hm Hk s. rewrite bind_run. specialize (Hm s).
  destruct (m s) as [[a| |e] s1]; simpl in *; [apply Hk|done|done].
Qed.

Lemma call_not_returned {A} (e : event) (f : Ext → result A * Ext) s :
  (call e f s).1 ≠ Returned.
Proof. unfold call. by destruct (f (ext s)) as [[a|e'] x]. Qed.

Lemma run_interpolation_body_not_returned (key : memo_key) s :
  (run_interpolation_body C key s).1 ≠ Returned.
Proof.
  destruct key as [[[inputs img] device] extension]. revert s.
  unfold run_interpolation_body.
  apply bind_not_returned; [apply call_not_returned|intros pipeline].
  apply bind_not_returned; [apply call_not_returned|intros image].
  apply bind_not_returned; [apply call_not_returned|by intros audio s].
Qed.

Lemma memo_lookup_app_other key key' (m : list (memo_key * (Image * bytes))) v :
  key' ≠ key → memo_lookup key' (m ++ [(key, v)]) = memo_lookup key' m.
Proof.
  intros Hne. induction m as [|[k v'] m IH]; simpl.
  - by rewrite decide_False.
  - by case_decide.
Qed.

(** What a call does to the cache, in every case. *)
Lemma run_interpolation_cache inputs img device extension s :
  let key : memo_key := (inputs, img, device, extension) in
  let r := run_interpolation C inputs img device extension s in
  r.1 ≠ Returned ∧
  match memo_lookup key (memo s) with
  | Some v => r.1 = Val v ∧ memo r.2 = memo s ∧ ext r.2 = ext s
  | None =>
      match r.1 with
      | Val v => memo r.2 = memo s ++ [(key, v)]
      | _ => memo r.2 = memo s
      end
  end.
Proof.
  intros key r. subst r.
  destruct (memo_lookup key (memo s)) as [v|] eqn:Hlook.
  { rewrite (run_interpolation_hit C _ _ _ _ _ _ Hlook). done. }
  assert (Hb := run_interpolation_body_keeps_memo C key).
  assert (Hn := run_interpolation_body_not_returned key).
  unfold run_interpolation, experimental_memo, memo_read. fold key.
  set (body := run_interpolation_body C key) in *. clearbody body.
  do 3 (rewrite bind_run; cbn). rewrite Hlook. rewrite bind_run.
  specialize (Hb {| memo := memo s; log := log s ++ [enter_run_interpolation key];
                    ext := ext s |}).
  specialize (Hn {| memo := memo s; log := log s ++ [enter_run_interpolation key];
                    ext := ext s |}).
  destruct (body _) as [[v| |e] s1]; simpl in *; [|by destruct Hn|by split].
  by rewrite Hb.
Qed.

(** A call of the cached function never ends the page by [return]; when it
    raises, its arguments were not in the cache and the cache is left as it
    was: nothing is stored for a failed computation. *)
Theorem call_that_raises_stores_nothing inputs img device extension s :
  (run_interpolation C inputs img device extension s).1 ≠ Returned ∧
  ∀ e, (run_interpolation C inputs img device extension s).1 = Raised e →
       memo_lookup (inputs, img, device, extension) (memo s) = None ∧
       memo (run_interpolation C inputs img device extension s).2 = memo s.
Proof.
  destruct (run_interpolation_cache inputs img device extension s) as [Hret Hcase].
  split; [done|]. intros e He.
  destruct (memo_lookup _ (memo s)) as [v|].
  - destruct Hcase as (Hv & _). congruence.
  - by rewrite He in Hcase.
Qed.

(** A call changes the cache at its own key at most, and only when nothing
    was stored there: what is stored under any other key, and what was
    already stored under its own, is found again unchanged.  The device and
    the output format are part of the key. *)
Theorem call_touches_own_key_only inputs img device extension s (key' : memo_key) :
  key' ≠ (inputs, img, device, extension) ∨ is_Some (memo_lookup key' (memo s)) →
  memo_lookup key' (memo (run_interpolation C inputs img device extension s).2)
  = memo_lookup key' (memo s).
Proof.
  intros Hk.
  destruct (run_interpolation_cache inputs img device extension s) as [_ Hcase].
  destruct (memo_lookup (inputs, img, device, extension) (memo s)) as [v|] eqn:Hlook.
  - destruct Hcase as (_ & -> & _). done.
  - assert (Hne : key' ≠ (inputs, img, device, extension)).
    { destruct Hk as [|[v Hv]]; [done|]. intros ->. congruence. }
    destruct (run_interpolation C inputs img device extension s).1;
      rewrite Hcase; [by apply memo_lookup_app_other|done..].
Qed.

End CachedCalls.

(** ** The cache over the life of the process *)

Section CacheInvariant.
Context {Ext Pipeline : Type} (C : collaborators Ext Pipeline).
Implicit Types s : state Ext.

Lemma when_keeps_memo (b : bool) (m : M Ext unit) :
  (∀ s, memo (m s).2 = memo s) → ∀ s, memo (when b m s).2 = memo s.
Proof. by destruct b. Qed.

Lemma decode_all_keeps_memo (al : list bytes) s :
  memo (decode_all C al s).2 = memo s.
Proof.
  revert s. induction al as [|b rest IH]; [done|]. simpl.
  apply keeps_memo_bind; [apply call_keeps_memo|intros seg].
  apply keeps_memo_bind; [apply IH|by intros segs s].
Qed.

Lemma final_output_keeps_memo (w : widgets) (a b : PromptInput) (al : list bytes) s :
  memo (final_output C w a b al s).2 = memo s.
Proof.
  revert s. unfold final_output.
  apply keeps_memo_bind; [done|intros _].
  apply keeps_memo_bind; [apply decode_all_keeps_memo|intros segs].
  apply keeps_memo_bind; [by intros s; destruct (stitch C segs)|intros seg].
  apply keeps_memo_bind; [apply call_keeps_memo|intros enc].
  apply keeps_memo_bind; [done|intros _].
  apply keeps_memo_bind; [done|by intros _ s].
Qed.

Lemma open_init_image_keeps_memo (w : widgets) s :
  memo (open_init_image C w s).2 = memo s.
Proof.
  rewrite open_init_image_run. destruct (selected_source w); [|done].
  apply call_keeps_memo.
Qed.

Lemma show_step_keeps_memo (w : widgets) (text : string) (image : Image)
    (audio : bytes) s :
  memo (when (w_show_individual_outputs w)
          (emit (st_write text);;
           when (w_show_images w) (emit (st_image image));;
           emit (st_audio audio)) s).2 = memo s.
Proof.
  revert s. apply when_keeps_memo.
  apply keeps_memo_bind; [done|intros _].
  apply keeps_memo_bind; [by apply when_keeps_memo|by intros _ s].
Qed.

(** *** A relation that every call respects is respected by the page *)

Section Respects.
Context (R : state Ext → state Ext → Prop).
Context (R_trans : ∀ s1 s2 s3, R s1 s2 → R s2 s3 → R s1 s3).
Context (R_memo : ∀ s s', memo s' = memo s → R s s').
Context (R_call : ∀ inputs img device extension s,
           R s (run_interpolation C inputs img device extension s).2).

Lemma respects_bind {A B} (m : M Ext A) (k : A → M Ext B) :
  (∀ s, R s (m s).2) → (∀ a s, R s (k a s).2) → ∀ s, R s ((m ≫= k) s).2.
Proof.
  intros Hm Hk s. rewrite bind_run. specialize (Hm s).
  destruct (m s) as [[a| |e] s1]; simpl in *; [|done..].
  eapply R_trans; [exact Hm|apply Hk].
Qed.

Lemma steps_respects (w : widgets) (a b : PromptInput) (img : Image) (total : nat) :
  ∀ (rest : list Qc) (i : nat) il al s,
    R s (steps C w a b img total i rest il al s).2.
Proof.
  induction rest as [|x rest IH]; intros i il al; simpl.
  - intros s. by apply R_memo.
  - apply respects_bind; [intros s; apply R_memo; by apply when_keeps_memo|intros _].
    apply respects_bind; [apply R_call|intros [image audio]].
    apply respects_bind; [|intros _; apply IH].
    intros s. apply R_memo, show_step_keeps_memo.
Qed.

Lemma render_interpolation_respects (w : widgets) s :
  R s (render_interpolation C w s).2.
Proof.
  rewrite render_interpolation_run. case_match; [by apply R_memo|].
  revert s. unfold interpolate.
  apply respects_bind; [intros s; apply R_memo; by destruct (Numeric.linspace _ _ _)|].
  intros alphas.
  apply respects_bind; [intros s; by apply R_memo|intros _].
  apply respects_bind; [intros s; apply R_memo, open_init_image_keeps_memo|intros img].
  apply respects_bind; [apply steps_respects|intros [il al]].
  intros s. apply R_memo, final_output_keeps_memo.
Qed.

Lemma session_respects (ws : list widgets) : ∀ s, R s (session C ws s).
Proof.
  induction ws as [|w ws IH]; intros s; simpl; [by apply R_memo|].
  eapply R_trans; [apply render_interpolation_respects|apply IH].
Qed.

End Respects.

Lemma memo_lookup_None key (m : list (memo_key * (Image * bytes))) :
  memo_lookup key m = None ↔ key ∉ m.*1.
Proof.
  induction m as [|[k v] m IH]; simpl.
  - split; [by intros _ ?%elem_of_nil|done].
  - rewrite not_elem_of_cons. case_decide as Hk.
    + split; [done|]. by intros [? _].
    + rewrite IH. split; [done|]. by intros [_ ?].
Qed.

Lemma memo_step_trans s1 s2 s3 : memo_step s1 s2 → memo_step s2 s3 → memo_step s1 s3.
Proof.
  intros (m1 & H1 & Hd1 & Hn1) (m2 & H2 & Hd2 & Hn2).
  exists (m1 ++ m2). rewrite H2, H1, (assoc_L (++)). split; [done|].
  assert (Hfresh : ∀ k, k ∈ m2.*1 → (k ∉ m1.*1) ∧ memo_lookup k (memo s1) = None).
  { intros k Hk%Hn2. rewrite H1 in Hk. apply memo_lookup_None in Hk.
    rewrite fmap_app, not_elem_of_app in Hk. destruct Hk as [Hk1 Hk2].
    split; [done|]. by apply memo_lookup_None. }
  split.
  - rewrite fmap_app. apply NoDup_app. split; [done|]. split; [|done].
    intros k Hk1 Hk2. by destruct (Hfresh k Hk2).
  - intros k. rewrite fmap_app, elem_of_app. intros [Hk|Hk]; [by apply Hn1|].
    by destruct (Hfresh k Hk).
Qed.

Lemma memo_step_same s s' : memo s' = memo s → memo_step s s'.
Proof.
  intros Hm. exists []. rewrite Hm, app_nil_r. split; [done|].
  split; [constructor|]. by intros k ?%elem_of_nil.
Qed.

Lemma memo_step_call inputs img device extension s :
  memo_step s (run_interpolation C inputs img device extension s).2.
Proof.
  destruct (run_interpolation_cache C inputs img device extension s) as [_ Hcase].
  destruct (memo_lookup (inputs, img, device, extension) (memo s)) as [v|] eqn:Hlook.
  - destruct Hcase as (_ & Hm & _). by apply memo_step_same.
  - destruct (run_interpolation C inputs img device extension s).1 as [v| |e];
      [|by apply memo_step_same..].
    exists [((inputs, img, device, extension), v)]. split; [done|]. split.
    + apply NoDup_singleton.
    + by intros k ->%list_elem_of_singleton.
Qed.

(** Over any number of runs of the page, however each ends, the cache only
    gains entries, each under a key that was not there: entries are never
    removed or replaced, and no key is ever stored twice.  In particular a
    cache whose keys are distinct (as the empty cache of a fresh process)
    keeps its keys distinct. *)
Theorem cache_only_gains_new_keys (ws : list widgets) s :
  memo_step s (session C ws s) ∧
  (NoDup (memo_keys s) → NoDup (memo_keys (session C ws s))) ∧
  (∀ key v, memo_lookup key (memo s) = Some v →
            memo_lookup key (memo (session C ws s)) = Some v).
Proof.
  assert (Hstep : memo_step s (session C ws s)).
  { apply session_respects.
    - apply memo_step_trans.
    - apply memo_step_same.
    - apply memo_step_call. }
  split; [done|]. destruct Hstep as (more & Hm & Hd & Hn). split.
  - unfold memo_keys. rewrite Hm, fmap_app. intros Hs.
    apply NoDup_app. split; [done|]. split; [|done].
    intros k Hk Hk'. apply Hn in Hk'. by apply memo_lookup_None in Hk'.
  - intros key v Hv. rewrite Hm. by apply memo_lookup_app_l.
Qed.

End CacheInvariant.

(** ** Runs on a warm cache *)

Section WarmCache.
Context {Ext Pipeline : Type} (C : collaborators Ext Pipeline).
Implicit Types s : state Ext.

(** The loop when every request of its schedule is in the cache: it cannot
    fail, it calls no outside code and leaves the cache and the outside
    world as they are, and the images and the audio it collects are, step by
    step, those stored for the requests. *)
Lemma steps_cached
    (w : widgets) (a b : PromptInput) (img : Image) (total : nat) :
  ∀ (rest : list Qc) (i : nat) il al s,
    (∀ x, x ∈ rest →
       is_Some (memo_lookup (make_inputs w a b x, img, w_device w, w_extension w)
                            (memo s))) →
    ∃ (results : list (Image * bytes)) s' added,
      steps C w a b img total i rest il al s
        = (Val (il ++ results.*1, al ++ results.*2), s') ∧
      Forall2 (λ x v, memo_lookup (make_inputs w a b x, img, w_device w, w_extension w)
                                  (memo s) = Some v) rest results ∧
      memo s' = memo s ∧ ext s' = ext s ∧
      log s' = log s ++ added ∧
      Forall (λ e, ¬ is_inference_event e) added.
Proof.
  induction rest as [|x rest IH]; intros i il al s Hcached.
  - exists [], s, []. simpl. rewrite !app_nil_r.
    split; [done|]. split; [constructor|]. by repeat split.
  - destruct (Hcached x) as [[image audio] Hx]; [by left|].
    cbn [steps]. rewrite bind_run.
    assert (Hwhen : ∃ shown0,
              when (bool_decide (i = 0%nat)) (emit (st_json (make_inputs w a b x))) s
              = (Val tt, {| memo := memo s; log := log s ++ shown0; ext := ext s |}) ∧
              Forall (λ e, ¬ is_inference_event e) shown0).
    { destruct (bool_decide (i = 0%nat)); simpl.
      - eexists [_]. split; [done|]. repeat constructor; cbn; tauto.
      - exists []. rewrite app_nil_r. split; [by destruct s|constructor]. }
    destruct Hwhen as (shown0 & -> & Hshown0). cbv iota beta. rewrite bind_run.
    rewrite (run_interpolation_hit C _ _ _ _ _ (image, audio)) by done.
    cbv iota beta. rewrite bind_run.
    set (s2 := {| memo := _; log := _; ext := _ |}).
    set (show := when (w_show_individual_outputs w) _).
    assert (Hshow : ∃ shown,
              show s2 = (Val tt, {| memo := memo s2; log := log s2 ++ shown;
                                    ext := ext s2 |}) ∧
              Forall (λ e, ¬ is_inference_event e) shown).
    { subst show. destruct (w_show_individual_outputs w); simpl.
      - rewrite bind_run, emit_run. cbv iota. rewrite bind_run.
        destruct (w_show_images w); simpl.
        + eexists [_; _; _]. cbv [emit]. simpl. rewrite <-!(assoc_L (++)). split; [done|].
          repeat constructor; cbn; tauto.
        + eexists [_; _]. cbv [emit]. simpl. rewrite <-!(assoc_L (++)). split; [done|].
          repeat constructor; cbn; tauto.
      - exists []. by rewrite app_nil_r. }
    destruct Hshow as (shown & -> & Hshown). cbv iota beta.
    destruct (IH (S i) (il ++ [image]) (al ++ [audio])
                 {| memo := memo s2; log := log s2 ++ shown; ext := ext s2 |})
      as (results & s' & added & Hrun & Hres & Hm & He & Hl & Hev).
    { simpl. intros y Hy. apply Hcached. by right. }
    exists ((image, audio) :: results), s'. eexists.
    rewrite Hrun. simpl in *. rewrite <-!(assoc_L (++)). simpl.
    split; [done|]. split; [by constructor|].
    rewrite Hm, He, Hl. split; [done|]. split; [done|]. split.
    { rewrite <-!(assoc_L (++)). reflexivity. }
    apply Forall_app. split; [done|].
    apply Forall_app. split; [repeat constructor; cbn; tauto|].
    apply Forall_app. by split.
Qed.

(** The loop, when it completes, leaves every request of its schedule in
    the cache. *)
Lemma steps_val_cached (w : widgets) (a b : PromptInput) (img : Image) (total : nat) :
  ∀ (rest : list Qc) (i : nat) il al s il' al' s',
    steps C w a b img total i rest il al s = (Val (il', al'), s') →
    ∀ x, x ∈ rest →
      is_Some (memo_lookup (make_inputs w a b x, img, w_device w, w_extension w)
                           (memo s')).
Proof.
  induction rest as [|y rest IH]; intros i il al s il' al' s' H x Hx; simpl in H.
  - by apply elem_of_nil in Hx.
  - apply bind_val in H as (u1 & s1 & _ & H).
    apply bind_val in H as ([image audio] & s2 & Hrun & H).
    apply bind_val in H as (u2 & s3 & Hshow & H).
    apply elem_of_cons in Hx as [->|Hx]; [|by eapply IH].
    apply run_interpolation_val_cached in Hrun as [Hv _].
    apply show_step_val in Hshow as (_ & _ & _ & _ & Hm & _).
    destruct (steps_grows C w a b img total rest (S i) (il ++ [image]) (al ++ [audio]) s3)
      as [more Hmore].
    rewrite H in Hmore. simpl in Hmore. rewrite Hmore, Hm.
    exists (image, audio). by apply memo_lookup_app_l.
Qed.

Lemma final_output_no_inference (w : widgets) (a b : PromptInput) (al : list bytes) :
  emits (λ e, ¬ is_inference_event e) (final_output C w a b al).
Proof.
  unfold final_output.
  apply emits_bind; [apply emits_emit; cbn; tauto|intros _].
  apply emits_bind; [apply decode_all_emits; intros data; cbn; tauto|intros segs].
  apply emits_bind; [apply emits_lift|intros seg].
  apply emits_bind; [apply emits_call; cbn; tauto|intros encoded].
  apply emits_bind; [apply emits_emit; cbn; tauto|intros _].
  apply emits_bind; [apply emits_emit; cbn; tauto|intros _].
  apply emits_emit; cbn; tauto.
Qed.

(** After a run that completed, running the page again in the same process
    with the same inputs (the two display check boxes apart, and after any
    number of other runs) computes nothing anew, provided the seed image
    opens as the same image: no checkpoint is loaded, the diffusion pipeline
    and the audio reconstruction do not run, and the cache is left as it
    is. *)
Theorem rerun_needs_no_inference
    (w : widgets) (outputs images : bool) (ws : list widgets) s s1 :
  render_interpolation C w s = (Val tt, s1) →
  (∀ src img x,
     selected_source w = Some src →
     Image_open_rgb C src (ext s) = (Ok img, x) →
     ∃ x', Image_open_rgb C src (ext (session C ws s1)) = (Ok img, x')) →
  ∃ added,
    log (render_interpolation C (with_display w outputs images) (session C ws s1)).2
      = log (session C ws s1) ++ added ∧
    Forall (λ e, ¬ is_inference_event e) added ∧
    memo (render_interpolation C (with_display w outputs images) (session C ws s1)).2
      = memo (session C ws s1).
Proof.
  intros Hrun Hsame. set (w' := with_display w outputs images).
  set (s2 := session C ws s1) in *.
  rewrite render_interpolation_run in Hrun.
  destruct (bool_decide (prompt (endpoint w "a") = "")
            || bool_decide (prompt (endpoint w "b") = "")) eqn:Hprompts; [done|].
  apply orb_false_elim in Hprompts as [Ha%bool_decide_eq_false Hb%bool_decide_eq_false].
  apply interpolate_val in Hrun
    as (alphas & src & img & x & il & al & s0 & Hlin & Hsrc & Hopen & Hsteps & Hfin).
  destruct (Hsame src img x Hsrc Hopen) as [x' Hopen'].
  assert (Hcached : ∀ y, y ∈ alphas →
            is_Some (memo_lookup
                       (make_inputs w' (endpoint w' "a") (endpoint w' "b") y, img,
                        w_device w', w_extension w') (memo s2))).
  { intros y Hy.
    destruct (steps_val_cached _ _ _ _ _ _ _ _ _ _ _ _ _ Hsteps y Hy) as [v Hv].
    exists v. apply (session_keeps_entries C ws s1).
    assert (Hm := final_output_keeps_memo C w (endpoint w "a") (endpoint w "b") al s0).
    rewrite Hfin in Hm. simpl in Hm. by rewrite Hm. }
  rewrite (render_interpolation_validated C w' s2 Ha Hb).
  unfold interpolate.
  change (w_num_interpolation_steps w') with (w_num_interpolation_steps w).
  rewrite Hlin, bind_run. simpl.
  rewrite bind_run, emit_run. cbv iota.
  rewrite bind_run, open_init_image_run.
  change (selected_source w') with (selected_source w). rewrite Hsrc.
  unfold call. simpl. rewrite Hopen'. simpl. rewrite bind_run.
  match goal with |- context [steps C w' ?a ?b img ?t 0 alphas [] [] ?st] =>
    destruct (steps_cached w' a b img t alphas 0%nat [] [] st Hcached)
      as (results & s3 & stepped & Hs & _ & Hm3 & _ & Hl3 & Hev3)
  end.
  rewrite Hs. simpl.
  destruct (final_output_no_inference w' (endpoint w' "a") (endpoint w' "b")
              results.*2 s3) as (shown & Hl4 & Hev4).
  assert (Hm4 := final_output_keeps_memo C w' (endpoint w' "a") (endpoint w' "b")
                   results.*2 s3).
  exists ([st_write (alphas_line alphas); ev_image_open src] ++ stepped ++ shown).
  split; [|split].
  - rewrite Hl4, Hl3. simpl. by rewrite <-!(assoc_L (++)).
  - apply Forall_app. split; [repeat constructor; cbn; tauto|].
    by apply Forall_app.
  - by rewrite Hm4, Hm3.
Qed.

End WarmCache.

(** ** Runs that complete whenever the outside code does *)

Section Progress.
Context {Ext Pipeline : Type} (C : collaborators Ext Pipeline).
Implicit Types s : state Ext.

Lemma ends_well_bind {A B} (m : M Ext A) (k : A → M Ext B) (Q : A → Prop) (R : B → Prop) :
  ends_well m Q → (∀ a, Q a → ends_well (k a) R) → ends_well (m ≫= k) R.
Proof.
  intros Hm Hk s. rewrite bind_run.
  destruct (Hm s) as (a & s1 & -> & Ha). by apply Hk.
Qed.

Lemma ends_well_ret {A} (a : A) (Q : A → Prop) : Q a → ends_well (mret a : M Ext A) Q.
Proof. intros Ha s. by exists a, s. Qed.

Lemma ends_well_emit (e : event) : ends_well (emit e : M Ext unit) (λ _, True).
Proof. intros s. by eexists _, _. Qed.

Lemma ends_well_call {A} (e : event) (f : Ext → result A * Ext) :
  succeeds f → ends_well (call e f) (λ _, True).
Proof.
  intros Hf s. destruct (Hf (ext s)) as (a & x & Hfx).
  unfold call. rewrite Hfx. by eexists _, _.
Qed.

Lemma ends_well_when (b : bool) (m : M Ext unit) :
  ends_well m (λ _, True) → ends_well (when b m) (λ _, True).
Proof. destruct b; [done|]. intros _. by apply ends_well_ret. Qed.

Lemma run_interpolation_ends_well inputs img device extension :
  all_succeed C →
  ends_well (run_interpolation C inputs img device extension) (λ _, True).
Proof.
  intros (Hload & Hriffuse & Haudio & _).
  unfold run_interpolation.
  eapply ends_well_bind; [apply ends_well_emit|intros _ _].
  eapply ends_well_bind with (Q := λ _, True).
  2:{ intros v _. eapply ends_well_bind; [apply ends_well_emit|intros _ _].
      by apply ends_well_ret. }
  unfold experimental_memo.
  eapply ends_well_bind with (Q := λ _, True); [by intros s; eexists _, _|].
  intros [v|] _; [by apply ends_well_ret|].
  eapply ends_well_bind with (Q := λ _, True).
  2:{ intros v _. eapply ends_well_bind with (Q := λ _, True);
        [by intros s; eexists _, _|intros _ _; by apply ends_well_ret]. }
  unfold run_interpolation_body.
  eapply ends_well_bind; [by apply ends_well_call|intros pipeline _].
  eapply ends_well_bind; [by apply ends_well_call|intros image _].
  eapply ends_well_bind; [by apply ends_well_call|intros audio _].
  by apply ends_well_ret.
Qed.

Lemma steps_ends_well (w : widgets) (a b : PromptInput) (img : Image) (total : nat) :
  all_succeed C →
  ∀ (rest : list Qc) (i : nat) il al,
    ends_well (steps C w a b img total i rest il al)
              (λ r, length r.2 = (length al + length rest)%nat).
Proof.
  intros HC. induction rest as [|x rest IH]; intros i il al; simpl.
  - apply ends_well_ret. simpl. lia.
  - eapply ends_well_bind; [apply ends_well_when, ends_well_emit|intros _ _].
    eapply ends_well_bind; [by apply run_interpolation_ends_well|].
    intros [image audio] _.
    eapply ends_well_bind with (Q := λ _, True).
    + apply ends_well_when.
      eapply ends_well_bind; [apply ends_well_emit|intros _ _].
      eapply ends_well_bind; [apply ends_well_when, ends_well_emit|intros _ _].
      apply ends_well_emit.
    + intros _ _ s. destruct (IH (S i) (il ++ [image]) (al ++ [audio]) s)
        as (r & s' & Hr & Hlen).
      exists r, s'. split; [done|]. rewrite length_app in Hlen. simpl in Hlen. lia.
Qed.

Lemma ends_well_call_post {A} (e : event) (f : Ext → result A * Ext) (Q : A → Prop) :
  succeeds f → (∀ x a x', f x = (Ok a, x') → Q a) → ends_well (call e f) Q.
Proof.
  intros Hf HQ s. destruct (Hf (ext s)) as (a & x & Hfx).
  unfold call. rewrite Hfx. eexists _, _. split; [done|]. by eapply HQ.
Qed.

Lemma decode_all_ends_well (f : Z * Z * Z) (al : list bytes) :
  all_succeed C → decodes_as C f →
  ends_well (decode_all C al)
            (λ segs, length segs = length al ∧
                     Forall (λ seg, AudioSegment.format_of seg = f) segs).
Proof.
  intros (_ & _ & _ & _ & Hdecode & _) Hf.
  induction al as [|data rest IH]; simpl; [by apply ends_well_ret|].
  eapply ends_well_bind;
    [apply ends_well_call_post; [done|intros x seg x'; apply Hf]|intros seg Hseg].
  eapply ends_well_bind; [exact IH|intros segs [Hsegs Hformat]].
  apply ends_well_ret. simpl. split; [by rewrite Hsegs|by constructor].
Qed.

Lemma final_output_ends_well (f : Z * Z * Z) (w : widgets) (a b : PromptInput)
    (al : list bytes) :
  all_succeed C → decodes_as C f → al ≠ [] →
  ends_well (final_output C w a b al) (λ _, True).
Proof.
  intros HC Hf Hal. unfold final_output.
  eapply ends_well_bind; [apply ends_well_emit|intros _ _].
  eapply ends_well_bind; [by apply decode_all_ends_well|intros segs [Hsegs Hformat]].
  destruct (stitch_same_format C f segs) as (seg & Hseg & _); [|done|].
  { intros ->. by destruct al. }
  rewrite Hseg.
  eapply ends_well_bind with (Q := λ _, True); [by apply ends_well_ret|intros ? _].
  destruct HC as (_ & _ & _ & _ & _ & Hexport).
  eapply ends_well_bind; [by apply ends_well_call|intros encoded _].
  eapply ends_well_bind; [apply ends_well_emit|intros _ _].
  eapply ends_well_bind; [apply ends_well_emit|intros _ _].
  apply ends_well_emit.
Qed.

(** The page adds no failure of its own: with both prompts entered, at
    least one step, a seed image selected (a named one, or an uploaded
    file) and a decoder that returns its segments in one format (so that
    [append] has nothing to convert), a run completes whenever the outside
    code it calls does. *)
Theorem run_completes_when_collaborators_do (w : widgets) s (f : Z * Z * Z) :
  all_succeed C → decodes_as C f →
  prompt (endpoint w "a") ≠ "" → prompt (endpoint w "b") ≠ "" →
  1 ≤ w_num_interpolation_steps w →
  is_Some (selected_source w) →
  ∃ s', render_interpolation C w s = (Val tt, s').
Proof.
  intros HC Hf Ha Hb HN [src Hsrc].
  rewrite render_interpolation_validated by done.
  destruct (Numeric.linspace 0 1 (w_num_interpolation_steps w)) as [alphas|e] eqn:Hlin.
  2:{ unfold Numeric.linspace in Hlin. by rewrite decide_False in Hlin by lia. }
  apply length_linspace in Hlin as Hlen. destruct Hlen as [_ Hlen].
  assert (Hrun : ends_well (interpolate C w (endpoint w "a") (endpoint w "b"))
                           (λ _, True)).
  { unfold interpolate. rewrite Hlin.
    eapply ends_well_bind with (Q := λ l, l = alphas); [by apply ends_well_ret|].
    intros ? ->.
    eapply ends_well_bind; [apply ends_well_emit|intros _ _].
    eapply ends_well_bind with (Q := λ _, True).
    { intros s0. rewrite open_init_image_run, Hsrc. revert s0.
      apply ends_well_call. by destruct HC as (_ & _ & _ & Hopen & _). }
    intros img _.
    eapply ends_well_bind; [by apply steps_ends_well|].
    intros [il al] Hal. simpl in Hal.
    apply (final_output_ends_well f); [done..|].
    intros ->. simpl in Hal. lia. }
  destruct (Hrun s) as ([] & s' & Hs & _). eauto.
Qed.

End Progress.

(** ** What the page shows *)

Section Display.
Context {Ext Pipeline : Type} (C : collaborators Ext Pipeline).
Implicit Types s : state Ext.

Lemma run_interpolation_emits_if (P : event → Prop) inputs img device extension :
  (∀ e, is_loop_event e → P e) →
  emits P (run_interpolation C inputs img device extension).
Proof.
  intros HP. unfold run_interpolation.
  apply emits_bind; [by apply emits_emit, HP|intros _].
  apply emits_bind.
  - apply emits_experimental_memo.
    eapply emits_weaken; [|apply run_interpolation_body_emits].
    intros e [He _]. apply HP. by destruct e.
  - intros v. apply emits_bind; [by apply emits_emit, HP|intros _; apply emits_ret].
Qed.

Lemma steps_emits_if (P : event → Prop) (w : widgets) (a b : PromptInput)
    (img : Image) (total : nat) :
  (∀ e, is_loop_event e → P e) →
  ∀ (rest : list Qc) (i : nat) il al,
    (i = 0%nat → ∀ r, P (st_json r)) →
    emits P (steps C w a b img total i rest il al).
Proof.
  intros HP. induction rest as [|x rest IH]; intros i il al Hjson; simpl.
  - apply emits_ret.
  - apply emits_bind.
    { case_bool_decide as Hi; simpl; [by apply emits_emit, Hjson|apply emits_ret]. }
    intros _. apply emits_bind; [by apply run_interpolation_emits_if|].
    intros [image audio]. apply emits_bind; [|intros _; by apply IH].
    apply emits_when.
    apply emits_bind; [by apply emits_emit, HP|intros _].
    apply emits_bind; [by apply emits_when, emits_emit, HP|intros _].
    by apply emits_emit, HP.
Qed.

Lemma open_init_image_emits (P : event → Prop) (w : widgets) :
  (∀ text, P (st_info text)) → (∀ src, P (ev_image_open src)) →
  emits P (open_init_image C w).
Proof.
  intros Hinfo Hopen s. rewrite open_init_image_run.
  destruct (selected_source w) as [src|].
  - by apply emits_call.
  - exists [st_info "Upload a custom seed image"]. split; [done|]. by constructor.
Qed.

(** *** The download button *)

Lemma download_last_bind {A B} (name mime : string) (m : M Ext A) (k : A → M Ext B) :
  emits (λ e, ¬ is_download e) m → (∀ a, download_last name mime (k a)) →
  download_last name mime (m ≫= k).
Proof.
  intros Hm Hk s. rewrite bind_run.
  destruct (Hm s) as (l1 & Hl1 & H1).
  destruct (m s) as [[a| |e] s1]; simpl in *; [|by exists l1..].
  destruct (Hk a s1) as (l2 & Hl2 & H2).
  exists (l1 ++ l2). rewrite Hl2, Hl1, (assoc_L (++)). split; [done|].
  destruct (k a s1).1 as [b| |e].
  - destruct H2 as (pre & stream & -> & Hpre).
    exists (l1 ++ pre), stream. rewrite (assoc_L (++)). split; [done|].
    by apply Forall_app.
  - by apply Forall_app.
  - by apply Forall_app.
Qed.

Lemma final_output_download_last (w : widgets) (a b : PromptInput) (al : list bytes) :
  download_last (output_name a b (w_extension w)) ("audio/" +:+ w_extension w)
                (final_output C w a b al).
Proof.
  unfold final_output.
  apply download_last_bind; [apply emits_emit; cbn; tauto|intros _].
  apply download_last_bind; [apply decode_all_emits; intros; cbn; tauto|intros segs].
  apply download_last_bind; [apply emits_lift|intros seg].
  apply download_last_bind; [apply emits_call; cbn; tauto|intros encoded].
  apply download_last_bind; [apply emits_emit; cbn; tauto|intros _].
  apply download_last_bind; [apply emits_emit; cbn; tauto|intros _].
  intros s. eexists [_]. split; [done|]. simpl.
  eexists [], _. split; [reflexivity|constructor].
Qed.

(** The download button is there exactly when the run completes: a run
    that completes ends by offering the download, named after the two
    prompts and the extension, and offers no other; a run that returns early
    or raises, wherever it stops, offers none. *)
Theorem download_offered_iff_completed (w : widgets) :
  download_last (output_name (endpoint w "a") (endpoint w "b") (w_extension w))
                ("audio/" +:+ w_extension w)
                (render_interpolation C w).
Proof.
  intros s. rewrite render_interpolation_run. case_match.
  { eexists [_]. split; [done|]. simpl. repeat constructor. cbn. tauto. }
  revert s. unfold interpolate.
  apply download_last_bind; [apply emits_lift|intros alphas].
  apply download_last_bind; [apply emits_emit; cbn; tauto|intros _].
  apply download_last_bind.
  { apply open_init_image_emits; intros; cbn; tauto. }
  intros img. apply download_last_bind; [|intros [il al]; apply final_output_download_last].
  apply steps_emits_if.
  - intros e He. destruct e; cbn in *; tauto.
  - intros _ r. cbn. tauto.
Qed.

(** *** The example input JSON *)

Lemma begins_with_bind {A B} (prefix : list event) (P : event → Prop)
    (m : M Ext A) (k : A → M Ext B) :
  begins_with prefix P m → (∀ a, emits P (k a)) → begins_with prefix P (m ≫= k).
Proof.
  intros Hm Hk s. rewrite bind_run.
  destruct (Hm s) as (l1 & Hl1 & H1).
  destruct (m s) as [[a| |e] s1]; simpl in *; [|by exists l1..].
  destruct (Hk a s1) as (l2 & Hl2 & H2).
  exists (l1 ++ l2). rewrite Hl2, Hl1, <-!(assoc_L (++)). split; [done|].
  by apply Forall_app.
Qed.

Lemma begins_with_emit {A} (e : event) (prefix : list event) (P : event → Prop)
    (m : M Ext A) :
  begins_with prefix P m → begins_with (e :: prefix) P (emit e;; m).
Proof.
  intros Hm s. rewrite bind_run, emit_run. cbv iota.
  destruct (Hm {| memo := memo s; log := log s ++ [e]; ext := ext s |})
    as (tail & Hl & Ht).
  exists tail. split; [|done]. rewrite Hl. simpl. by rewrite <-(assoc_L (++)).
Qed.

Lemma emits_begins_with {A} (P : event → Prop) (m : M Ext A) :
  emits P m → begins_with [] P m.
Proof. done. Qed.

Lemma no_json_shown (l : list event) :
  Forall (λ e, ∀ r, e ≠ st_json r) l → jsons_shown l = [].
Proof.
  induction 1 as [|e l He _ IH]; [done|].
  unfold jsons_shown in *. destruct e; simpl; try exact IH.
  by destruct (He inputs).
Qed.

Lemma no_request_passed (l : list event) :
  Forall (λ e, ∀ k, e ≠ enter_run_interpolation k) l → requests_of l = [].
Proof.
  induction 1 as [|e l He _ IH]; [done|].
  unfold requests_of in *. destruct e; simpl; try exact IH.
  by destruct (He key).
Qed.

Lemma first_step_begins (w : widgets) (a b : PromptInput) (img : Image) (total : nat)
    (x : Qc) (rest : list Qc) il al :
  begins_with
    [st_json (make_inputs w a b x);
     enter_run_interpolation (make_inputs w a b x, img, w_device w, w_extension w)]
    (λ e, ∀ r, e ≠ st_json r)
    (steps C w a b img total 0 (x :: rest) il al).
Proof.
  cbn [steps]. rewrite bool_decide_eq_true_2 by done.
  apply (begins_with_emit _ [_]).
  apply begins_with_bind.
  - unfold run_interpolation. apply (begins_with_emit _ []), emits_begins_with.
    apply emits_bind.
    + apply emits_experimental_memo.
      eapply emits_weaken; [|apply run_interpolation_body_emits].
      intros e [He _] r ->. done.
    + intros v. apply emits_bind; [by apply emits_emit|intros _; apply emits_ret].
  - intros [image audio]. apply emits_bind.
    + apply emits_when.
      apply emits_bind; [by apply emits_emit|intros _].
      apply emits_bind; [by apply emits_when, emits_emit|intros _].
      by apply emits_emit.
    + intros _. apply steps_emits_if; [|done].
      intros e He r ->. done.
Qed.

(** The example input JSON is shown at most once in a run, and what it
    shows is the first request that the run passes to the cached function
    (the request is shown before it is passed on, and also when the call then
    fails); a run that passes no request on shows none. *)
Theorem example_json_is_first_request (w : widgets) s :
  ∃ added,
    log (render_interpolation C w s).2 = log s ++ added ∧
    jsons_shown added = take 1 (requests_of added).
Proof.
  set (quiet := λ e : event, (∀ r, e ≠ st_json r) ∧ ∀ k, e ≠ enter_run_interpolation k).
  assert (Hquiet : ∀ l, Forall quiet l → jsons_shown l = take 1 (requests_of l)).
  { intros l Hl. rewrite no_json_shown, no_request_passed; [done|..];
      eapply Forall_impl; try exact Hl; by intros e []. }
  assert (Hfinal : ∀ w a b al, emits quiet (final_output C w a b al)).
  { intros w0 a b al. unfold final_output.
    apply emits_bind; [by apply emits_emit|intros _].
    apply emits_bind; [by apply decode_all_emits|intros segs].
    apply emits_bind; [apply emits_lift|intros seg].
    apply emits_bind; [by apply emits_call|intros encoded].
    apply emits_bind; [by apply emits_emit|intros _].
    apply emits_bind; [by apply emits_emit|intros _].
    by apply emits_emit. }
  rewrite render_interpolation_run. case_match.
  { eexists [_]. split; [done|]. apply Hquiet. by repeat constructor. }
  unfold interpolate. rewrite bind_run.
  destruct (Numeric.linspace 0 1 (w_num_interpolation_steps w)) as [alphas|e]; simpl.
  2:{ exists []. by rewrite app_nil_r. }
  rewrite bind_run, emit_run. cbv iota. rewrite bind_run.
  destruct (open_init_image_emits quiet w) with
    (s := {| memo := memo s; log := log s ++ [st_write (alphas_line alphas)];
             ext := ext s |}) as (opened & Hopened & Hq); [done..|].
  destruct (open_init_image C w _) as [[img| |e] s1]; simpl in *.
  2,3: exists (st_write (alphas_line alphas) :: opened);
       (split; [by rewrite Hopened, <-(assoc_L (++))|]);
       apply Hquiet; by repeat constructor.
  assert (Hpre : Forall quiet (st_write (alphas_line alphas) :: opened))
    by (by repeat constructor).
  assert (Hlog1 : log s1 = log s ++ st_write (alphas_line alphas) :: opened)
    by (by rewrite Hopened, <-(assoc_L (++))).
  clear Hopened. destruct alphas as [|x rest].
  - destruct (Hfinal w (endpoint w "a") (endpoint w "b") [] s1) as (shown & Hl & Hs).
    exists ((st_write (alphas_line []) :: opened) ++ shown). split.
    + transitivity (log (final_output C w (endpoint w "a") (endpoint w "b") [] s1).2);
        [reflexivity|].
      by rewrite Hl, Hlog1, (assoc_L (++)).
    + apply Hquiet. by apply Forall_app.
  - match goal with |- context [(?m ≫= ?k) s1] =>
      destruct (begins_with_bind _ _ m k (first_step_begins _ _ _ _ _ _ _ _ _)) with (s := s1)
        as (tail & Hl & Ht)
    end.
    { intros [il al]. eapply emits_weaken; [|apply Hfinal]. by intros e []. }
    exists ((st_write (alphas_line (x :: rest)) :: opened)
            ++ [st_json (make_inputs w (endpoint w "a") (endpoint w "b") x);
                enter_run_interpolation (step_key w img x)] ++ tail).
    split; [rewrite Hl, Hlog1, <-!(assoc_L (++)); reflexivity|].
    unfold jsons_shown, requests_of in *.
    rewrite !omap_app. fold (jsons_shown (st_write (alphas_line (x :: rest)) :: opened)).
    fold (requests_of (st_write (alphas_line (x :: rest)) :: opened)).
    rewrite no_json_shown, no_request_passed;
      [|eapply Forall_impl; try exact Hpre; by intros e []..].
    fold (jsons_shown tail). rewrite (no_json_shown tail) by done. done.
Qed.

(** *** The audio *)

Lemma audios_shown_app (l1 l2 : list event) :
  audios_shown (l1 ++ l2) = audios_shown l1 ++ audios_shown l2.
Proof. apply omap_app. Qed.

Lemma no_audio_in_calls (l : list event) :
  Forall (λ e, is_inference_event e) l → audios_shown l = [].
Proof.
  induction 1 as [|e l He _ IH]; [done|].
  unfold audios_shown in *. by destruct e.
Qed.

Lemma no_audio_in_decoding (l : list bytes) : audios_shown (ev_from_file <$> l) = [].
Proof. induction l as [|b l IH]; [done|]. exact IH. Qed.

Lemma show_step_audio (w : widgets) (i total : nat) (x : Qc) image audio_bytes s u s' :
  when (w_show_individual_outputs w)
    (emit (st_write ("#### (" +:+ pretty (i + 1)%nat +:+ " / " +:+ pretty total
                     +:+ ") Alpha=" +:+ Numeric.format_f 2 x));;
     when (w_show_images w) (emit (st_image image));;
     emit (st_audio audio_bytes)) s = (Val u, s') →
  ∃ shown, log s' = log s ++ shown ∧ memo s' = memo s ∧
           audios_shown shown = if w_show_individual_outputs w then [audio_bytes] else [].
Proof.
  destruct (w_show_individual_outputs w); simpl.
  - intros H.
    apply bind_val in H as (? & s1 & ->%emit_val & H).
    apply bind_val in H as (? & s2 & (Hm & Hx & Hl)%when_val & ->%emit_val).
    simpl in *. eexists (_ :: (if w_show_images w then [_] else []) ++ [_]).
    rewrite Hl, Hm. split; [by rewrite <-!(assoc_L (++))|].
    by destruct (w_show_images w).
  - intros [= _ <-]. exists []. by rewrite app_nil_r.
Qed.

(** The loop, when it completes: the lists grow by the results of the
    steps, in order; each result is what the cache then holds for the
    request of its step; the audio of each is played when individual
    outputs are asked for. *)
Lemma steps_val_results (w : widgets) (a b : PromptInput) (img : Image) (total : nat) :
  ∀ (rest : list Qc) (i : nat) il al s il' al' s',
    steps C w a b img total i rest il al s = (Val (il', al'), s') →
    ∃ (results : list (Image * bytes)) added,
      il' = il ++ results.*1 ∧ al' = al ++ results.*2 ∧
      Forall2 (λ x v, memo_lookup (make_inputs w a b x, img, w_device w, w_extension w)
                                  (memo s') = Some v) rest results ∧
      log s' = log s ++ added ∧
      audios_shown added = if w_show_individual_outputs w then results.*2 else [].
Proof.
  induction rest as [|x rest IH]; intros i il al s il' al' s' H; simpl in H.
  - injection H as <- <- <-. exists [], []. rewrite !app_nil_r.
    repeat split; [constructor|by destruct (w_show_individual_outputs w)].
  - apply bind_val in H as (u1 & s1 & (Hm1 & _ & Hl1)%when_val & H).
    apply bind_val in H as ([image audio] & s2 & Hrun & H).
    apply bind_val in H as (u2 & s3 & Hshow & H).
    assert (Hrun' := Hrun). apply run_interpolation_val in Hrun' as (mid & Hl2 & Hmid).
    apply run_interpolation_val_cached in Hrun as [Hv _].
    apply show_step_audio in Hshow as (shown & Hl3 & Hm3 & Hs3).
    destruct (steps_grows C w a b img total rest (S i) (il ++ [image]) (al ++ [audio]) s3)
      as [more Hmore].
    rewrite H in Hmore. simpl in Hmore.
    apply IH in H as (results & added & -> & -> & Hres & Hl4 & Ha4).
    exists ((image, audio) :: results). eexists.
    split; [by rewrite <-(assoc_L (++))|]. split; [by rewrite <-(assoc_L (++))|]. split.
    { constructor; [|done]. rewrite Hmore, Hm3. by apply memo_lookup_app_l. }
    split.
    { rewrite Hl4, Hl3, Hl2, Hl1. rewrite <-!(assoc_L (++)). reflexivity. }
    rewrite !audios_shown_app, Ha4, Hs3, (no_audio_in_calls mid Hmid).
    case_bool_decide; by destruct (w_show_individual_outputs w).
Qed.

(** What a run that completes plays: the audio of each step, in the order
    of the schedule, when individual outputs are asked for (none
    otherwise), then the final audio, which is the content of the stream
    that the download button offers.  The audio of a step is the one the
    cache holds for the request of the step when the run ends. *)
Theorem audio_played_by_complete_run (w : widgets) s u s' :
  render_interpolation C w s = (Val u, s') →
  ∃ (alphas : list Qc) (img : Image) (results : list (Image * bytes))
    (encoded : bytes) (added : list event),
    Numeric.linspace 0 1 (w_num_interpolation_steps w) = Ok alphas ∧
    Forall2 (λ x v, memo_lookup (step_key w img x) (memo s') = Some v) alphas results ∧
    log s' = log s ++ added ∧
    audios_shown added
      = (if w_show_individual_outputs w then results.*2 else []) ++ [encoded] ∧
    last added
      = Some (st_download_button
                (output_name (endpoint w "a") (endpoint w "b") (w_extension w))
                {| buf := encoded; pos := 0 |}
                (output_name (endpoint w "a") (endpoint w "b") (w_extension w))
                ("audio/" +:+ w_extension w)).
Proof.
  rewrite render_interpolation_run. case_match; [done|]. intros Hrun.
  apply interpolate_val in Hrun
    as (alphas & src & img & x & il & al & s2 & Hlin & _ & _ & Hsteps & Hfin).
  apply steps_val_results in Hsteps as (results & stepped & _ & Hal & Hres & Hl & Ha).
  simpl in Hal. subst al.
  assert (Hm := final_output_keeps_memo C w (endpoint w "a") (endpoint w "b")
                  results.*2 s2).
  rewrite Hfin in Hm. simpl in Hm.
  apply final_output_val in Hfin as (segs & seg & enc & s3 & Hdec & _ & _ & _ & Hl').
  apply decode_all_val in Hdec as (_ & Hl3 & _).
  exists alphas, img, results, enc. eexists.
  split; [done|]. split; [by rewrite Hm|]. split.
  { rewrite Hl', Hl3. simpl. rewrite Hl. simpl. rewrite <-!(assoc_L (++)). reflexivity. }
  split.
  - by rewrite !audios_shown_app, Ha, no_audio_in_decoding.
  - by rewrite !last_app.
Qed.

End Display.

(** ** What a run stitches *)

Section StitchedRun.
Context {Ext Pipeline : Type} (C : collaborators Ext Pipeline).
Implicit Types s : state Ext.

Lemma decode_all_decodes (al : list bytes) :
  ∀ s segs s',
    decode_all C al s = (Val segs, s') →
    Forall2 (λ audio seg, ∃ x x', from_file C audio x = (Ok seg, x')) al segs.
Proof.
  induction al as [|b rest IH]; intros s segs s' H; simpl in H.
  - injection H as <- <-. constructor.
  - apply bind_val in H as (seg & s1 & (x & Hdec & ->)%call_val & H).
    apply bind_val in H as (segs' & s2 & Hrest%IH & [= <- <-]).
    constructor; [by eauto|done].
Qed.

Lemma elem_of_exported (l : list event) (seg : AudioSegment.t) (format : string) :
  ev_export seg format ∈ l → seg ∈ exported l.
Proof.
  intros Hin. apply list_elem_of_omap. by exists (ev_export seg format).
Qed.

Lemma decoded_in_one_format (f : Z * Z * Z) (results : list (Image * bytes))
    (segs : list AudioSegment.t) :
  decodes_as C f →
  Forall2 (λ v seg, ∃ x x', from_file C v.2 x = (Ok seg, x')) results segs →
  Forall (λ seg, AudioSegment.format_of seg = f) segs.
Proof.
  intros Hf. induction 1 as [|v seg results segs (x & x' & Hdec) _ IH]; constructor;
    [by eapply Hf|done].
Qed.

(** C2 (as the code computes it). In a run that completes, the segment
    that is exported, and whose duration is shown, is the stitching of the
    decoded audio of every step, in the order of the schedule.  When the
    decoded segments have one format, nothing is converted or trimmed: the
    frames of the segments are put end to end, the frame count of the result
    is the sum of their frame counts, and its duration as a rational number
    of seconds is exactly the sum of their durations.  The
    [duration_seconds] that the page shows is a double, the total frame
    count over the frame rate rounded once. *)
Theorem run_stitches_every_step (w : widgets) s s' :
  render_interpolation C w s = (Val tt, s') →
  ∃ (alphas : list Qc) (img : Image) (results : list (Image * bytes))
    (segs : list AudioSegment.t) (out : AudioSegment.t),
    Numeric.linspace 0 1 (w_num_interpolation_steps w) = Ok alphas ∧
    Forall2 (λ x v, memo_lookup (step_key w img x) (memo s') = Some v) alphas results ∧
    Forall2 (λ v seg, ∃ x x', from_file C v.2 x = (Ok seg, x')) results segs ∧
    stitch C segs = Ok out ∧
    ev_export out (w_extension w) ∈ log s' ∧
    st_write ("Duration: "
              +:+ Binary64.format_f 3 (AudioSegment.duration_seconds out)
              +:+ " seconds") ∈ log s' ∧
    ∀ f, Forall (λ seg, AudioSegment.format_of seg = f) segs →
      AudioSegment.format_of out = f ∧
      AudioSegment.frames out = List.concat (AudioSegment.frames <$> segs) ∧
      AudioSegment.frame_count out
        = foldr Z.add 0 (AudioSegment.frame_count <$> segs) ∧
      exact_duration out = total_exact_duration segs ∧
      AudioSegment.duration_seconds out
        = if decide (f.1.2 = 0) then PrimFloat.zero
          else
            let d :=
              PrimFloat.div
                (Binary64.of_Z (foldr Z.add 0 (AudioSegment.frame_count <$> segs)))
                (Binary64.of_Z f.1.2) in
            if PrimFloat.eqb d PrimFloat.zero then PrimFloat.zero else d.
Proof.
  rewrite render_interpolation_run. case_match; [done|]. intros Hrun.
  apply interpolate_val in Hrun
    as (alphas & src & img & x & il & al & s2 & Hlin & _ & _ & Hsteps & Hfin).
  apply steps_val_results in Hsteps as (results & stepped & _ & Hal & Hres & _ & _).
  simpl in Hal. subst al.
  assert (Hm := final_output_keeps_memo C w (endpoint w "a") (endpoint w "b")
                  results.*2 s2).
  rewrite Hfin in Hm. simpl in Hm.
  apply final_output_val in Hfin as (segs & seg & enc & s3 & Hdec & Hst & _ & _ & Hl).
  apply decode_all_decodes in Hdec. apply Forall2_fmap_l in Hdec.
  exists alphas, img, results, segs, seg.
  split; [done|]. split; [by rewrite Hm|]. split; [exact Hdec|]. split; [done|].
  split; [rewrite Hl; set_solver|]. split; [rewrite Hl; set_solver|].
  intros f Hf.
  destruct (stitch_same_format C f segs)
    as (out & Hout & Hformat & Hframes & Hcount & Hexact); [|done|].
  { intros ->. done. }
  rewrite Hst in Hout. injection Hout as <-.
  do 4 (split; [done|]).
  unfold AudioSegment.duration_seconds. rewrite Hcount.
  destruct f as [[c r] sw]. by injection Hformat as _ -> _.
Qed.

End StitchedRun.

(** ** The further properties at work *)

Lemma output_name_has_no_space_witness :
  (" "%char ∉ list_ascii_of_string "mp3") ∧
  (" "%char ∉ list_ascii_of_string
     (output_name (endpoint Demo.bells_to_jazz "a") (endpoint Demo.bells_to_jazz "b")
                  "mp3")) ∧
  String.length
    (output_name (endpoint Demo.bells_to_jazz "a") (endpoint Demo.bells_to_jazz "b") "mp3")
  = (String.length (prompt (endpoint Demo.bells_to_jazz "a"))
     + String.length (prompt (endpoint Demo.bells_to_jazz "b"))
     + String.length "mp3" + 2)%nat.
Proof.
  assert (Hext : " "%char ∉ list_ascii_of_string "mp3").
  { simpl. intros H. repeat (apply elem_of_cons in H as [H|H]; [discriminate H|]).
    exact (proj1 (elem_of_nil _) H). }
  split; [exact Hext|].
  exact (output_name_has_no_space (endpoint Demo.bells_to_jazz "a")
           (endpoint Demo.bells_to_jazz "b") "mp3" Hext).
Defined.

Example bells_to_jazz_name :
  output_name (endpoint Demo.bells_to_jazz "a") (endpoint Demo.bells_to_jazz "b") "mp3"
  = "church_bells_jazz.mp3".
Proof. vm_compute. reflexivity. Qed.

Lemma custom_without_upload_returns_witness :
  prompt (endpoint Demo.nothing_uploaded "a") ≠ "" ∧
  prompt (endpoint Demo.nothing_uploaded "b") ≠ "" ∧
  0 ≤ w_num_interpolation_steps Demo.nothing_uploaded ∧
  w_init_image_name Demo.nothing_uploaded = "custom" ∧
  w_init_image_file Demo.nothing_uploaded = None ∧
  ∃ alphas,
    Numeric.linspace 0 1 (w_num_interpolation_steps Demo.nothing_uploaded) = Ok alphas ∧
    render_interpolation Demo.demo Demo.nothing_uploaded (Demo.start_state 1) =
      (Returned,
       {| memo := memo (Demo.start_state 1);
          log := log (Demo.start_state 1)
                 ++ [st_write (alphas_line alphas);
                     st_info "Upload a custom seed image"];
          ext := ext (Demo.start_state 1) |}).
Proof.
  assert (Ha : prompt (endpoint Demo.nothing_uploaded "a") ≠ "")
    by (intros H; vm_compute in H; discriminate H).
  assert (Hb : prompt (endpoint Demo.nothing_uploaded "b") ≠ "")
    by (intros H; vm_compute in H; discriminate H).
  assert (HN : 0 ≤ w_num_interpolation_steps Demo.nothing_uploaded) by (simpl; lia).
  split; [exact Ha|]. split; [exact Hb|]. split; [exact HN|].
  split; [reflexivity|]. split; [reflexivity|].
  exact (custom_without_upload_returns Demo.demo Demo.nothing_uploaded
           (Demo.start_state 1) Ha Hb HN eq_refl eq_refl).
Defined.

Lemma seed_image_error_aborts_witness :
  prompt (endpoint Demo.bells_to_jazz "a") ≠ "" ∧
  prompt (endpoint Demo.bells_to_jazz "b") ≠ "" ∧
  0 ≤ w_num_interpolation_steps Demo.bells_to_jazz ∧
  selected_source Demo.bells_to_jazz = Some (SeedFile "og_beat.png") ∧
  Image_open_rgb Demo.no_seed_image (SeedFile "og_beat.png") (ext (Demo.start_state 1))
    = (Err (ExternalError "Image.open"), 1%nat) ∧
  ∃ alphas,
    Numeric.linspace 0 1 (w_num_interpolation_steps Demo.bells_to_jazz) = Ok alphas ∧
    render_interpolation Demo.no_seed_image Demo.bells_to_jazz (Demo.start_state 1) =
      (Raised (ExternalError "Image.open"),
       {| memo := memo (Demo.start_state 1);
          log := log (Demo.start_state 1)
                 ++ [st_write (alphas_line alphas);
                     ev_image_open (SeedFile "og_beat.png")];
          ext := 1%nat |}).
Proof.
  assert (Ha : prompt (endpoint Demo.bells_to_jazz "a") ≠ "")
    by (intros H; vm_compute in H; discriminate H).
  assert (Hb : prompt (endpoint Demo.bells_to_jazz "b") ≠ "")
    by (intros H; vm_compute in H; discriminate H).
  assert (HN : 0 ≤ w_num_interpolation_steps Demo.bells_to_jazz) by (simpl; lia).
  assert (Hsrc : selected_source Demo.bells_to_jazz = Some (SeedFile "og_beat.png"))
    by (vm_compute; reflexivity).
  split; [exact Ha|]. split; [exact Hb|]. split; [exact HN|].
  split; [exact Hsrc|]. split; [reflexivity|].
  exact (seed_image_error_aborts Demo.no_seed_image Demo.bells_to_jazz
           (Demo.start_state 1) (SeedFile "og_beat.png") (ExternalError "Image.open")
           1%nat Ha Hb HN Hsrc eq_refl).
Defined.

Lemma fewer_than_one_step_raises_witness :
  prompt (endpoint (Demo.demo_widgets "church bells" "jazz" 0) "a") ≠ "" ∧
  prompt (endpoint (Demo.demo_widgets "church bells" "jazz" 0) "b") ≠ "" ∧
  w_num_interpolation_steps (Demo.demo_widgets "church bells" "jazz" 0) < 1 ∧
  render_interpolation Demo.demo (Demo.demo_widgets "church bells" "jazz" 0)
                       (Demo.start_state 1) =
    (Raised (IndexError "list index out of range"),
     {| memo := [];
        log := [st_write "**Alphas** : []"; ev_image_open (SeedFile "og_beat.png");
                st_write "#### Final Output"];
        ext := 1%nat |}).
Proof.
  assert (Ha : prompt (endpoint (Demo.demo_widgets "church bells" "jazz" 0) "a") ≠ "")
    by (intros H; vm_compute in H; discriminate H).
  assert (Hb : prompt (endpoint (Demo.demo_widgets "church bells" "jazz" 0) "b") ≠ "")
    by (intros H; vm_compute in H; discriminate H).
  assert (HN : w_num_interpolation_steps (Demo.demo_widgets "church bells" "jazz" 0) < 1)
    by (simpl; lia).
  split; [exact Ha|]. split; [exact Hb|]. split; [exact HN|].
  exact (proj2 (fewer_than_one_step_raises Demo.demo
                  (Demo.demo_widgets "church bells" "jazz" 0) (Demo.start_state 1)
                  Ha Hb HN)
           eq_refl (SeedFile "og_beat.png") Demo.og_beat 1%nat
           ltac:(vm_compute; reflexivity) eq_refl).
Defined.

(** A negative step count: [np.linspace] raises, nothing is shown. *)
Example negative_step_count :
  ∃ msg,
    render_interpolation Demo.demo (Demo.demo_widgets "church bells" "jazz" (-1))
                         (Demo.start_state 1)
    = (Raised (ValueError msg), Demo.start_state 1).
Proof. eexists. vm_compute. reflexivity. Qed.

Lemma call_touches_own_key_only_witness :
  ((Demo.first_request, Demo.og_beat, "cpu", "mp3")
   ≠ (Demo.first_request, Demo.og_beat, "cuda", "mp3")) ∧
  memo_lookup (Demo.first_request, Demo.og_beat, "cpu", "mp3")
    (memo (run_interpolation Demo.demo Demo.first_request Demo.og_beat "cuda" "mp3"
             (Demo.start_state 1)).2)
  = memo_lookup (Demo.first_request, Demo.og_beat, "cpu", "mp3")
                (memo (Demo.start_state 1)).
Proof.
  assert (Hne : (Demo.first_request, Demo.og_beat, "cpu", "mp3")
                ≠ (Demo.first_request, Demo.og_beat, "cuda", "mp3"))
    by (intros H; discriminate H).
  split; [exact Hne|].
  exact (call_touches_own_key_only Demo.demo Demo.first_request Demo.og_beat "cuda" "mp3"
           (Demo.start_state 1) (Demo.first_request, Demo.og_beat, "cpu", "mp3")
           (or_introl Hne)).
Defined.

Lemma rerun_needs_no_inference_witness :
  (render_interpolation Demo.demo Demo.bells_to_jazz (Demo.start_state 1)).1 = Val tt ∧
  ∃ added,
    log (render_interpolation Demo.demo (with_display Demo.bells_to_jazz true true)
           (session Demo.demo [Demo.bells_to_jazz_custom]
              (render_interpolation Demo.demo Demo.bells_to_jazz (Demo.start_state 1)).2)).2
      = log (session Demo.demo [Demo.bells_to_jazz_custom]
               (render_interpolation Demo.demo Demo.bells_to_jazz (Demo.start_state 1)).2)
        ++ added ∧
    Forall (λ e, ¬ is_inference_event e) added ∧
    memo (render_interpolation Demo.demo (with_display Demo.bells_to_jazz true true)
            (session Demo.demo [Demo.bells_to_jazz_custom]
               (render_interpolation Demo.demo Demo.bells_to_jazz (Demo.start_state 1)).2)).2
      = memo (session Demo.demo [Demo.bells_to_jazz_custom]
                (render_interpolation Demo.demo Demo.bells_to_jazz (Demo.start_state 1)).2).
Proof.
  assert (H : (render_interpolation Demo.demo Demo.bells_to_jazz (Demo.start_state 1)).1
              = Val tt) by (vm_compute; reflexivity).
  split; [exact H|].
  refine (rerun_needs_no_inference Demo.demo Demo.bells_to_jazz true true
            [Demo.bells_to_jazz_custom] (Demo.start_state 1) _
            (run_val_intro _ _ _ H) _).
  intros src img x _ Hopen. injection Hopen as <- _.
  eexists. reflexivity.
Defined.

(** The second of two runs on the same inputs, with the individual outputs
    shown the second time: six more calls of the cached function than runs
    of the diffusion pipeline. *)
Example rerun_with_outputs_shown :
  let s2 := session Demo.demo [Demo.bells_to_jazz; with_display Demo.bells_to_jazz true true]
                    (Demo.start_state 1) in
  length (requests_of (log s2)) = 6%nat ∧
  length (riffuse_calls (log s2)) = 3%nat ∧
  length (audios_shown (log s2)) = 5%nat.
Proof. repeat split; vm_compute; reflexivity. Qed.

Lemma run_completes_when_collaborators_do_witness :
  all_succeed Demo.steady ∧
  prompt (endpoint Demo.bells_to_jazz "a") ≠ "" ∧
  prompt (endpoint Demo.bells_to_jazz "b") ≠ "" ∧
  1 ≤ w_num_interpolation_steps Demo.bells_to_jazz ∧
  is_Some (selected_source Demo.bells_to_jazz) ∧
  decodes_as Demo.steady (1, 4, 2) ∧
  ∃ s', render_interpolation Demo.steady Demo.bells_to_jazz (Demo.start_state 0)
        = (Val tt, s').
Proof.
  assert (HC : all_succeed Demo.steady).
  { unfold all_succeed, succeeds.
    split; [intros; eexists _, _; reflexivity|].
    split; [intros; eexists _, _; reflexivity|].
    split; [intros; eexists _, _; reflexivity|].
    split; [intros; eexists _, _; reflexivity|].
    split; intros; eexists _, _; reflexivity. }
  assert (Ha : prompt (endpoint Demo.bells_to_jazz "a") ≠ "")
    by (intros H; vm_compute in H; discriminate H).
  assert (Hb : prompt (endpoint Demo.bells_to_jazz "b") ≠ "")
    by (intros H; vm_compute in H; discriminate H).
  assert (HN : 1 ≤ w_num_interpolation_steps Demo.bells_to_jazz) by (simpl; lia).
  assert (Hsrc : is_Some (selected_source Demo.bells_to_jazz))
    by (eexists; vm_compute; reflexivity).
  assert (Hf : decodes_as Demo.steady (1, 4, 2))
    by (intros data x seg x' Hdec; injection Hdec as <- _; reflexivity).
  split; [exact HC|]. split; [exact Ha|]. split; [exact Hb|]. split; [exact HN|].
  split; [exact Hsrc|].
  split; [exact Hf|].
  exact (run_completes_when_collaborators_do Demo.steady Demo.bells_to_jazz
           (Demo.start_state 0) (1, 4, 2) HC Hf Ha Hb HN Hsrc).
Defined.

(** With the device busy at the first run of the pipeline, the same run
    does not complete and offers no download. *)
Example busy_device_offers_nothing :
  (render_interpolation Demo.demo Demo.bells_to_jazz (Demo.start_state 0)).1
    = Raised (ExternalError "riffuse") ∧
  filter is_download
    (log (render_interpolation Demo.demo Demo.bells_to_jazz (Demo.start_state 0)).2) = [].
Proof. split; vm_compute; reflexivity. Qed.

Lemma audio_played_by_complete_run_witness :
  (render_interpolation Demo.demo Demo.bells_to_jazz_custom (Demo.start_state 1)).1
    = Val tt ∧
  ∃ (results : list (Image * bytes)) (encoded : bytes) (added : list event),
    log (render_interpolation Demo.demo Demo.bells_to_jazz_custom (Demo.start_state 1)).2
      = log (Demo.start_state 1) ++ added ∧
    audios_shown added
      = (if w_show_individual_outputs Demo.bells_to_jazz_custom
         then results.*2 else []) ++ [encoded].
Proof.
  assert (H : (render_interpolation Demo.demo Demo.bells_to_jazz_custom
                 (Demo.start_state 1)).1 = Val tt) by (vm_compute; reflexivity).
  split; [exact H|].
  destruct (audio_played_by_complete_run Demo.demo Demo.bells_to_jazz_custom
              (Demo.start_state 1) _ _ (run_val_intro _ _ _ H))
    as (alphas & img & results & encoded & added & _ & _ & Hlog & Haudio & _).
  exists results, encoded, added. split; [exact Hlog|exact Haudio].
Defined.

(** The audio played with an uploaded seed image and the individual outputs
    shown: two steps, then the two together. *)
Example bells_to_jazz_custom_audio :
  audios_shown
    (log (render_interpolation Demo.demo Demo.bells_to_jazz_custom (Demo.start_state 1)).2)
  = [[Byte.x01; Byte.x07; Byte.x08];
     [Byte.x02; Byte.x07; Byte.x08];
     [Byte.x01; Byte.x07; Byte.x08; Byte.x02; Byte.x07; Byte.x08]].
Proof. vm_compute. reflexivity. Qed.

Lemma run_stitches_every_step_witness :
  (render_interpolation Demo.demo Demo.bells_to_jazz (Demo.start_state 1)).1 = Val tt ∧
  ∃ (results : list (Image * bytes)) (segs : list AudioSegment.t) (out : AudioSegment.t),
    length results = 3%nat ∧
    Forall2 (λ v seg, ∃ x x', from_file Demo.demo v.2 x = (Ok seg, x')) results segs ∧
    stitch Demo.demo segs = Ok out ∧
    Forall (λ seg, AudioSegment.format_of seg = (1, 4, 2)) segs ∧
    AudioSegment.frames out = List.concat (AudioSegment.frames <$> segs) ∧
    foldr Z.add 0 (AudioSegment.frame_count <$> segs) = 9 ∧
    this (total_exact_duration segs) = (9 # 4)%Q ∧
    st_write "Duration: 2.250 seconds"
      ∈ log (render_interpolation Demo.demo Demo.bells_to_jazz (Demo.start_state 1)).2.
Proof.
  assert (H : (render_interpolation Demo.demo Demo.bells_to_jazz (Demo.start_state 1)).1
              = Val tt) by (vm_compute; reflexivity).
  split; [exact H|].
  destruct (run_stitches_every_step Demo.demo Demo.bells_to_jazz (Demo.start_state 1) _
              (run_val_intro _ _ _ H))
    as (alphas & img & results & segs & out & Hlin & Hres & Hdec & Hst & Hexp & Hshown
        & Hsame).
  assert (Hf : decodes_as Demo.demo (1, 4, 2))
    by (intros data x seg x' Hd; injection Hd as <- _; reflexivity).
  assert (Hformat := decoded_in_one_format Demo.demo (1, 4, 2) results segs Hf Hdec).
  destruct (Hsame (1, 4, 2) Hformat) as (_ & Hframes & Hcount & Hduration & _).
  assert (Hone : ∃ seg,
            exported (log (render_interpolation Demo.demo Demo.bells_to_jazz
                             (Demo.start_state 1)).2) = [seg] ∧
            AudioSegment.frame_count seg = 9 ∧
            this (exact_duration seg) = (9 # 4)%Q ∧
            Binary64.format_f 3 (AudioSegment.duration_seconds seg) = "2.250")
    by (eexists; split; [vm_compute; reflexivity|repeat split; vm_compute; reflexivity]).
  destruct Hone as (seg & Hlist & Hnine & Hexact & Htext).
  apply elem_of_exported in Hexp. rewrite Hlist in Hexp.
  apply list_elem_of_singleton in Hexp. subst seg.
  rewrite Htext in Hshown.
  exists results, segs, out.
  split; [exact (eq_trans (eq_sym (Forall2_length _ _ _ Hres))
                          (proj2 (length_linspace _ _ Hlin)))|].
  split; [exact Hdec|]. split; [exact Hst|]. split; [exact Hformat|].
  split; [exact Hframes|].
  split; [exact (eq_trans (eq_sym Hcount) Hnine)|].
  split; [exact (eq_trans (f_equal this (eq_sym Hduration)) Hexact)|exact Hshown].
Defined.

(** C2 as stated fails: three segments of five frames at 44100 frames a
    second are stitched into fifteen frames, whose [duration_seconds] is
    not the sum of the three [duration_seconds]. *)
Lemma stitched_duration_is_not_the_sum :
  Forall (λ seg, AudioSegment.format_of seg = (1, 44100, 2)) Demo.three_short_segments ∧
  ∃ out : AudioSegment.t,
    stitch Demo.demo Demo.three_short_segments = Ok out ∧
    AudioSegment.frame_count out = 15 ∧
    PrimFloat.eqb
      (AudioSegment.duration_seconds out)
      (Binary64.sum (AudioSegment.duration_seconds <$> Demo.three_short_segments))
      = false ∧
    Binary64.format_f 20 (AudioSegment.duration_seconds out) = "0.00034013605442176868" ∧
    Binary64.format_f 20
      (Binary64.sum (AudioSegment.duration_seconds <$> Demo.three_short_segments))
      = "0.00034013605442176874".
Proof.
  split; [repeat constructor|].
  eexists. split; [vm_compute; reflexivity|].
  repeat split; vm_compute; reflexivity.
Qed.

(** Ten renders of 5.12 seconds (225792 frames at 44100 frames a second):
    the sum of their ten [duration_seconds] and the [duration_seconds] of
    their 2257920 frames. *)
Example ten_renders_durations :
  Binary64.format_f 15
    (Binary64.sum (replicate 10 (PrimFloat.div (Binary64.of_Z 225792)
                                               (Binary64.of_Z 44100))))
    = "51.199999999999996" ∧
  Binary64.format_f 15 (PrimFloat.div (Binary64.of_Z 2257920) (Binary64.of_Z 44100))
    = "51.200000000000003".
Proof. split; vm_compute; reflexivity. Qed.

(** Three frames and two frames at four frames a second: five quarters of a
    second. *)
Example two_segments_duration :
  this (total_exact_duration Demo.two_segments) = (5 # 4)%Q ∧
  (AudioSegment.duration_seconds <$> Demo.two_segments) ≫= (λ d, [Binary64.format_f 2 d])
    = ["0.75"; "0.50"].
Proof. split; vm_compute; reflexivity. Qed.

(** A stereo segment cannot be brought to six channels: [append] raises. *)
Example stereo_then_surround_fails :
  ∃ msg, stitch Demo.demo Demo.stereo_then_surround = Err (ValueError msg).
Proof. eexists. vm_compute. reflexivity. Qed.
